(** * RGA editor demo: the node model, causal positioning and the merge function

    A shallow embedding of the replicated-growable-array core of the editor
    component: [visibleNodes], [findInsertPosition], [applyOperation] and the
    edit entry points [updateNodes], [handleInsert], [handleDelete], together
    with the theorems that relate them to the written specification.

    The repository carries four iterations of the component: src/index.tsx
    and three more in src/unnamed/part_001, called "the bundle" below.  They
    are kept apart in modules named after where each one lives:
      - [Legacy]  : the first component of the bundle (lines 1-311),
      - [Index]   : src/index.tsx,
      - [Sibling] : the second component of the bundle (lines 311-1177),
      - [SiblingCopy] : the third component of the bundle (lines 1177-1949).

    Modelling conventions.
      - An array is a [list]; array indices are JavaScript numbers and are
        kept as [Z], with [-1] the "not found" answer of [findIndex] and
        [indexOf].
      - [timestamp] holds [Date.now()] values and integer literals: [Z].
      - [previousId : string | null] is [option string].
      - [Math.random()] and [Date.now()] are inputs of the entry points.
      - A JavaScript string is held as the UTF-8 bytes of its text; its
        [.length], which counts UTF-16 code units, is [JS.strLength]. *)

From Stdlib Require Import ZArith Lia.
From stdpp Require Import base decidable option list strings.

(** ** The node model *)

Inductive Author : Type := user1 | user2.

Record RGANode : Type := mkNode {
  id : string;
  value : string;
  timestamp : Z;
  previousId : option string;
  removed : bool;
  author : Author
}.

#[global] Instance Author_eq_dec : EqDecision Author.
Proof. solve_decision. Defined.

#[global] Instance RGANode_eq_dec : EqDecision RGANode.
Proof. solve_decision. Defined.

(** The root sentinel built by the initial effect and by "Reset State". *)
Definition rootNode : RGANode :=
  {| id := "root"; value := ""; timestamp := 0; previousId := None;
     removed := false; author := user1 |}.

(** ** The array primitives the component uses *)

Module JS.
Section Array.
Context {A : Type}.

(** [arr.findIndex(p)]: index of the first element satisfying [p], [-1]
    when there is none. *)
Definition findIndex (P : A → Prop) `{∀ x, Decision (P x)} (arr : list A) : Z :=
  match list_find P arr with
  | Some (i, _) => Z.of_nat i
  | None => (-1)%Z
  end.

(** [arr.find(p)]: the first element satisfying [p], [undefined] ([None])
    when there is none. *)
Definition find (P : A → Prop) `{∀ x, Decision (P x)} (arr : list A) : option A :=
  snd <$> list_find P arr.

(** [arr.indexOf(x)]: index of the first element equal to [x], [-1] when
    there is none.  JavaScript compares object references; the embedding
    compares values, which gives the same index wherever the component
    calls it (see [indexOf_find]). *)
Definition indexOf `{EqDecision A} (x : A) (arr : list A) : Z :=
  findIndex (λ y, y = x) arr.

(** [arr[i]]: [undefined] ([None]) outside [0 .. length-1]. *)
Definition get (arr : list A) (i : Z) : option A :=
  if (i <? 0)%Z then None else arr !! Z.to_nat i.

(** [copy = [...arr]; copy[i] = x] for an index inside the array. *)
Definition set (arr : list A) (i : Z) (x : A) : list A :=
  if (i <? 0)%Z then arr else <[Z.to_nat i := x]> arr.

(** A relative index of [slice], clamped as ECMAScript does: a negative
    index counts from the end. *)
Definition clamp (len k : Z) : Z :=
  if (k <? 0)%Z then Z.max (len + k) 0 else Z.min k len.

(** [arr.slice(from, to)]. *)
Definition slice (arr : list A) (from to : Z) : list A :=
  let len := Z.of_nat (length arr) in
  let f := clamp len from in
  let t := clamp len to in
  take (Z.to_nat (t - f)) (drop (Z.to_nat f) arr).

(** [arr.slice(from)]. *)
Definition sliceFrom (arr : list A) (from : Z) : list A :=
  slice arr from (Z.of_nat (length arr)).
End Array.

(** The UTF-16 code units taken by the character that the UTF-8 byte [b]
    opens: none for a continuation byte (0x80-0xBF), two (a surrogate pair)
    for the lead byte of a four-byte character (0xF0 and above), one for
    every other lead byte. *)
Definition utf16Units (b : Ascii.ascii) : nat :=
  let c := Ascii.nat_of_ascii b in
  if (c <? 128)%nat then 1
  else if (c <? 192)%nat then 0
  else if (c <? 240)%nat then 1
  else 2.

(** [str.length]: the number of UTF-16 code units of the text. *)
Fixpoint strLength (str : string) : nat :=
  match str with
  | EmptyString => 0
  | String b rest => utf16Units b + strLength rest
  end.
End JS.

(** [nodes.filter(n => !n.removed)], the same in all four components. *)
Definition visibleNodes (nodes : list RGANode) : list RGANode :=
  filter (λ n, removed n = false) nodes.

(** [vnodes.filter(node => node.id !== 'root')] of [handleEditorClick]: the
    characters the editor shows. *)
Definition visibleSequence (nodes : list RGANode) : list RGANode :=
  filter (λ n, id n ≠ "root") (visibleNodes nodes).

(** ** The component state and its edit entry points

    The React state of the component, with the pending [setTimeout]
    callbacks made explicit.  A callback either runs the merge function on
    the receiving replica, or (second and third component, [handleDelete])
    maps the receiving replica's list. *)

Inductive Callback : Type :=
  | Apply (node : RGANode)
      (* setRemoteNodes(nodes => applyOperation(nodes, node)) *)
  | Replace (targetId : string) (updatedNode : RGANode).
      (* setNodes(nodes => nodes.map(n => n.id === targetId ? updatedNode : n)) *)

Record Timer : Type := mkTimer {
  recipient : Author;
  callback : Callback;
  delay : Z
}.

Record Editor : Type := mkEditor {
  user1Nodes : list RGANode;
  user2Nodes : list RGANode;
  networkDelay : Z;
  isOffline : bool;
  cursorUser1 : Z;
  cursorUser2 : Z;
  timers : list Timer
}.

Definition nodesOf (a : Author) (st : Editor) : list RGANode :=
  match a with user1 => user1Nodes st | user2 => user2Nodes st end.

Definition peer (a : Author) : Author :=
  match a with user1 => user2 | user2 => user1 end.

(** [setUser1Nodes(f)] / [setUser2Nodes(f)] with a functional update. *)
Definition setNodes (a : Author) (f : list RGANode → list RGANode)
    (st : Editor) : Editor :=
  match a with
  | user1 => mkEditor (f (user1Nodes st)) (user2Nodes st) (networkDelay st)
               (isOffline st) (cursorUser1 st) (cursorUser2 st) (timers st)
  | user2 => mkEditor (user1Nodes st) (f (user2Nodes st)) (networkDelay st)
               (isOffline st) (cursorUser1 st) (cursorUser2 st) (timers st)
  end.

(** [setCursorPos(prev => ({...prev, [author]: f(prev[author])}))]. *)
Definition setCursor (a : Author) (f : Z → Z) (st : Editor) : Editor :=
  match a with
  | user1 => mkEditor (user1Nodes st) (user2Nodes st) (networkDelay st)
               (isOffline st) (f (cursorUser1 st)) (cursorUser2 st) (timers st)
  | user2 => mkEditor (user1Nodes st) (user2Nodes st) (networkDelay st)
               (isOffline st) (cursorUser1 st) (f (cursorUser2 st)) (timers st)
  end.

(** [setTimeout(cb, delay)]. *)
Definition setTimeout (t : Timer) (st : Editor) : Editor :=
  mkEditor (user1Nodes st) (user2Nodes st) (networkDelay st)
    (isOffline st) (cursorUser1 st) (cursorUser2 st) (timers st ++ [t]).

Definition setIsOffline (b : bool) (st : Editor) : Editor :=
  mkEditor (user1Nodes st) (user2Nodes st) (networkDelay st)
    b (cursorUser1 st) (cursorUser2 st) (timers st).

Section Component.
Variable applyOperation : list RGANode → RGANode → list RGANode.
Variable findInsertPosition : Z → list RGANode → string.

(** [updateNodes] (src/index.tsx lines 78-93). *)
Definition updateNodes (author : Author) (node : RGANode)
    (immediateUpdate : bool) (st : Editor) : Editor :=
  (* Local update (immediate) *)
  let st1 :=
    if immediateUpdate
    then setNodes author (λ nodes, applyOperation nodes node) st
    else st in
  (* Remote update (delayed) *)
  if negb (isOffline st)
  then setTimeout (mkTimer (peer author) (Apply node) (networkDelay st)) st1
  else st1.

(** [handleInsert] (src/index.tsx lines 95-119); [randomId] stands for
    [Math.random().toString(36).substr(2, 9)] and [now] for [Date.now()]. *)
Definition handleInsert (value : string) (position : Z) (author : Author)
    (immediateUpdate : bool) (randomId : string) (now : Z)
    (st : Editor) : Editor :=
  let sourceNodes := nodesOf author st in
  let previousId := findInsertPosition position sourceNodes in
  let newNode :=
    {| id := randomId; value := value; timestamp := now;
       previousId := Some previousId; removed := false; author := author |} in
  setCursor author (λ c, c + 1)%Z
    (updateNodes author newNode immediateUpdate st).

(** The tombstoned copy [{...targetNode, removed: true, timestamp: now}]. *)
Definition tombstone (targetNode : RGANode) (now : Z) : RGANode :=
  {| id := id targetNode; value := value targetNode; timestamp := now;
     previousId := previousId targetNode; removed := true;
     author := author targetNode |}.

(** [handleDelete] (src/index.tsx lines 121-145). *)
Definition handleDelete (position : Z) (author : Author)
    (immediateUpdate : bool) (now : Z) (st : Editor) : Editor :=
  let sourceNodes := nodesOf author st in
  let vnodes := visibleNodes sourceNodes in
  (* Adjust position to account for root node *)
  match JS.get vnodes (position + 1) with
  | None => st
  | Some targetNode =>
      let updatedNode := tombstone targetNode now in
      setCursor author (λ c, Z.max 0 (c - 1))
        (updateNodes author updatedNode immediateUpdate st)
  end.

(** [handleDelete] of the second and third component (lines 727-764):
    as above, then the tombstone is also mapped over the peer's list. *)
Definition handleDeleteResend (position : Z) (author : Author)
    (immediateUpdate : bool) (now : Z) (st : Editor) : Editor :=
  let sourceNodes := nodesOf author st in
  let vnodes := visibleNodes sourceNodes in
  match JS.get vnodes (position + 1) with
  | None => st
  | Some targetNode =>
      let updatedNode := tombstone targetNode now in
      let st1 :=
        setCursor author (λ c, Z.max 0 (c - 1))
          (updateNodes author updatedNode immediateUpdate st) in
      (* Remote update only if not offline *)
      if negb (isOffline st)
      then setTimeout (mkTimer (peer author)
                         (Replace (id targetNode) updatedNode)
                         (networkDelay st)) st1
      else st1
  end.

(** What a pending callback does to the list it is run on. *)
Definition runCallback (cb : Callback) (nodes : list RGANode)
    : list RGANode :=
  match cb with
  | Apply node => applyOperation nodes node
  | Replace targetId updatedNode =>
      (λ n, if bool_decide (id n = targetId) then updatedNode else n)
        <$> nodes
  end.

(** The [k]-th pending timer fires. *)
Definition fire (k : nat) (st : Editor) : Editor :=
  match timers st !! k with
  | None => st
  | Some t =>
      let st1 := setNodes (recipient t) (runCallback (callback t)) st in
      mkEditor (user1Nodes st1) (user2Nodes st1) (networkDelay st1)
        (isOffline st1) (cursorUser1 st1) (cursorUser2 st1)
        (delete k (timers st))
  end.

(** All pending timers fire in the order they were set (what happens
    when they were all set with the same delay). *)
Fixpoint flush (ts : list Timer) (st : Editor) : Editor :=
  match ts with
  | [] => st
  | t :: ts' =>
      flush ts' (setNodes (recipient t) (runCallback (callback t)) st)
  end.

Definition flushAll (st : Editor) : Editor :=
  flush (timers st)
    (mkEditor (user1Nodes st) (user2Nodes st) (networkDelay st)
       (isOffline st) (cursorUser1 st) (cursorUser2 st) []).

(** The effect of the second component that watches [isOffline] (bundle
    lines 942-957; its dependency list is [[isOffline]], so it runs when
    that flag changes and not when a node list does): once online, every
    node of each replica is sent to the other one. *)
Definition syncEffect (st : Editor) : Editor :=
  if negb (isOffline st) then
    let st1 :=
      foldl (λ s node, updateNodes user1 node false s) st (user1Nodes st) in
    foldl (λ s node, updateNodes user2 node false s) st1 (user2Nodes st)
  else st.

(** The merge of a whole list of delivered nodes, in delivery order. *)
Definition applyAll (nodes : list RGANode) (ops : list RGANode)
    : list RGANode :=
  foldl applyOperation nodes ops.
(** [cursorPos[author]]. *)
Definition cursorOf (a : Author) (st : Editor) : Z :=
  match a with user1 => cursorUser1 st | user2 => cursorUser2 st end.

(** [handleKeyDown] (src/index.tsx lines 147-166); [key] is [e.key], and the
    two inputs [randomId] and [now] are what [Math.random] and [Date.now]
    answer should the key reach [handleInsert] or [handleDelete].  The last
    test is [e.key.length === 1], on the UTF-16 length of the key's name. *)
Definition handleKeyDown (author : Author) (key : string)
    (randomId : string) (now : Z) (st : Editor) : Editor :=
  let targetNodes := nodesOf author st in
  if bool_decide (key = "Backspace") && (cursorOf author st >? 0)%Z then
    handleDelete (cursorOf author st - 1) author true now st
  else if bool_decide (key = "ArrowLeft") then
    setCursor author (λ c, Z.max 0 (c - 1)) st
  else if bool_decide (key = "ArrowRight") then
    setCursor author
      (λ c, Z.min (Z.of_nat (length (visibleNodes targetNodes))) (c + 1)) st
  else if bool_decide (JS.strLength key = 1) then
    handleInsert key (cursorOf author st) author true randomId now st
  else st.

(** [handleKeyDown] of the second and third component (lines 764-783): the
    same text over their own [handleDelete]. *)
Definition handleKeyDownResend (author : Author) (key : string)
    (randomId : string) (now : Z) (st : Editor) : Editor :=
  let targetNodes := nodesOf author st in
  if bool_decide (key = "Backspace") && (cursorOf author st >? 0)%Z then
    handleDeleteResend (cursorOf author st - 1) author true now st
  else if bool_decide (key = "ArrowLeft") then
    setCursor author (λ c, Z.max 0 (c - 1)) st
  else if bool_decide (key = "ArrowRight") then
    setCursor author
      (λ c, Z.min (Z.of_nat (length (visibleNodes targetNodes))) (c + 1)) st
  else if bool_decide (JS.strLength key = 1) then
    handleInsert key (cursorOf author st) author true randomId now st
  else st.

(** The first component's [handleInsert] (bundle lines 72-112): there is no
    offline switch yet, the peer's timer is always set. *)
Definition handleInsertAlways (value : string) (position : Z)
    (author : Author) (immediateUpdate : bool) (randomId : string) (now : Z)
    (st : Editor) : Editor :=
  let sourceNodes := nodesOf author st in
  let previousId := findInsertPosition position sourceNodes in
  let newNode :=
    {| id := randomId; value := value; timestamp := now;
       previousId := Some previousId; removed := false; author := author |} in
  (* Local update *)
  let st1 :=
    if immediateUpdate
    then setNodes author (λ nodes, applyOperation nodes newNode) st
    else st in
  (* Remote update with delay *)
  let st2 :=
    setTimeout (mkTimer (peer author) (Apply newNode) (networkDelay st)) st1 in
  setCursor author (λ c, c + 1)%Z st2.

(** The first component's [handleDelete] (bundle lines 114-147): the node
    at [vnodes[position]] is tombstoned by mapping the lists, at once for
    the author and from a timer for the peer. *)
Definition handleDeleteMap (position : Z) (author : Author)
    (immediateUpdate : bool) (now : Z) (st : Editor) : Editor :=
  let sourceNodes := nodesOf author st in
  let vnodes := visibleNodes sourceNodes in
  match JS.get vnodes position with
  | None => st
  | Some targetNode =>
      let updatedNode := tombstone targetNode now in
      (* Local update *)
      let st1 :=
        if immediateUpdate
        then setNodes author
               (runCallback (Replace (id targetNode) updatedNode)) st
        else st in
      (* Remote update with delay *)
      let st2 :=
        setTimeout (mkTimer (peer author)
                      (Replace (id targetNode) updatedNode)
                      (networkDelay st)) st1 in
      setCursor author (λ c, Z.max 0 (c - 1)) st2
  end.

(** The "Reset State" button (src/index.tsx lines 326-343). *)
Definition resetState (st : Editor) : Editor :=
  mkEditor [rootNode] [rootNode] (networkDelay st) (isOffline st) 0 0
    (timers st).
End Component.

(** ** The merge function with the sibling tie-break

    [applyOperation] of the second component of the bundle (lines 651-682). *)

Module Sibling.

(** The guard of the [while] loop:
    [insertIndex < nodes.length &&
     nodes[insertIndex].previousId === newNode.previousId &&
     nodes[insertIndex].timestamp < newNode.timestamp]. *)
Definition earlierSibling (newNode n : RGANode) : bool :=
  bool_decide (previousId n = previousId newNode)
  && (timestamp n <? timestamp newNode)%Z.

Definition loopGuard (nodes : list RGANode) (newNode : RGANode)
    (insertIndex : Z) : bool :=
  (insertIndex <? Z.of_nat (length nodes))%Z
  && match JS.get nodes insertIndex with
     | Some n => earlierSibling newNode n
     | None => false
     end.

(** The loop [while (guard) insertIndex++], unrolled [fuel] times.  Each
    turn moves [insertIndex] one step towards [nodes.length], so
    [length nodes] turns are enough ([advance_exits]). *)
Fixpoint advance (fuel : nat) (nodes : list RGANode) (newNode : RGANode)
    (insertIndex : Z) : Z :=
  match fuel with
  | O => insertIndex
  | S fuel' =>
      if loopGuard nodes newNode insertIndex
      then advance fuel' nodes newNode (insertIndex + 1)%Z
      else insertIndex
  end.

Definition applyOperation (nodes : list RGANode) (newNode : RGANode)
    : list RGANode :=
  (* Check for existing node (conflict case) *)
  let existingIndex := JS.findIndex (λ n, id n = id newNode) nodes in
  if bool_decide (existingIndex ≠ (-1)%Z) then
    match JS.get nodes existingIndex with
    | Some existing =>
        if (timestamp existing >=? timestamp newNode)%Z then nodes
        else JS.set nodes existingIndex newNode
    | None => nodes (* not reached: [findIndex] answers a valid index *)
    end
  else
    match JS.find (λ n, Some (id n) = previousId newNode) nodes with
    | None => nodes
    | Some insertAfterNode =>
        let insertIndex := (JS.indexOf insertAfterNode nodes + 1)%Z in
        let insertIndex := advance (length nodes) nodes newNode insertIndex in
        JS.slice nodes 0 insertIndex ++ [newNode]
          ++ JS.sliceFrom nodes insertIndex
    end.

(** [findInsertPosition] (lines 643-649), the text of src/index.tsx. *)
Definition findInsertPosition (position : Z) (nodes : list RGANode) : string :=
  let vnodes := visibleNodes nodes in
  if (position =? 0)%Z then "root"
  else
    match JS.get vnodes position with
    | Some targetNode =>
        if bool_decide (id targetNode = "") then "root" else id targetNode
    | None => "root"
    end.

Definition handleInsert := handleInsert applyOperation findInsertPosition.
Definition handleDelete := handleDeleteResend applyOperation.
Definition handleKeyDown :=
  handleKeyDownResend applyOperation findInsertPosition.

End Sibling.

(** The third component of the bundle (lines 1517-1548) repeats the second
    one's merge function character for character; it is embedded a second
    time from its own text. *)

Module SiblingCopy.

Definition earlierSibling (newNode n : RGANode) : bool :=
  bool_decide (previousId n = previousId newNode)
  && (timestamp n <? timestamp newNode)%Z.

Definition loopGuard (nodes : list RGANode) (newNode : RGANode)
    (insertIndex : Z) : bool :=
  (insertIndex <? Z.of_nat (length nodes))%Z
  && match JS.get nodes insertIndex with
     | Some n => earlierSibling newNode n
     | None => false
     end.

Fixpoint advance (fuel : nat) (nodes : list RGANode) (newNode : RGANode)
    (insertIndex : Z) : Z :=
  match fuel with
  | O => insertIndex
  | S fuel' =>
      if loopGuard nodes newNode insertIndex
      then advance fuel' nodes newNode (insertIndex + 1)%Z
      else insertIndex
  end.

Definition applyOperation (nodes : list RGANode) (newNode : RGANode)
    : list RGANode :=
  let existingIndex := JS.findIndex (λ n, id n = id newNode) nodes in
  if bool_decide (existingIndex ≠ (-1)%Z) then
    match JS.get nodes existingIndex with
    | Some existing =>
        if (timestamp existing >=? timestamp newNode)%Z then nodes
        else JS.set nodes existingIndex newNode
    | None => nodes
    end
  else
    match JS.find (λ n, Some (id n) = previousId newNode) nodes with
    | None => nodes
    | Some insertAfterNode =>
        let insertIndex := (JS.indexOf insertAfterNode nodes + 1)%Z in
        let insertIndex := advance (length nodes) nodes newNode insertIndex in
        JS.slice nodes 0 insertIndex ++ [newNode]
          ++ JS.sliceFrom nodes insertIndex
    end.

End SiblingCopy.

(** ** The merge function of src/index.tsx (lines 51-76)

    The predecessor is looked up first, then the conflict case, and a fresh
    node goes directly behind its predecessor. *)

Module Index.

Definition applyOperation (nodes : list RGANode) (newNode : RGANode)
    : list RGANode :=
  (* Find where to insert the new node *)
  match JS.find (λ n, Some (id n) = previousId newNode) nodes with
  | None => nodes
  | Some insertAfterNode =>
      (* Find the index where we should insert *)
      let insertIndex := (JS.indexOf insertAfterNode nodes + 1)%Z in
      (* Check for existing node (conflict case) *)
      let existingIndex := JS.findIndex (λ n, id n = id newNode) nodes in
      if bool_decide (existingIndex ≠ (-1)%Z) then
        match JS.get nodes existingIndex with
        | Some existing =>
            if (timestamp existing >=? timestamp newNode)%Z then nodes
            else JS.set nodes existingIndex newNode
        | None => nodes (* not reached *)
        end
      else
        (* Simple insert at the correct position *)
        JS.slice nodes 0 insertIndex ++ [newNode]
          ++ JS.sliceFrom nodes insertIndex
  end.

(** [findInsertPosition] (lines 43-49); [targetNode?.id || 'root'] falls
    back to ['root'] when there is no node at [position] and when its id
    is the empty string. *)
Definition findInsertPosition (position : Z) (nodes : list RGANode) : string :=
  let vnodes := visibleNodes nodes in
  if (position =? 0)%Z then "root"
  else
    match JS.get vnodes position with
    | Some targetNode =>
        if bool_decide (id targetNode = "") then "root" else id targetNode
    | None => "root"
    end.

Definition handleInsert := handleInsert applyOperation findInsertPosition.
Definition handleDelete := handleDelete applyOperation.
Definition handleKeyDown := handleKeyDown applyOperation findInsertPosition.

End Index.

(** ** The first component of the bundle (lines 42-70) *)

Module Legacy.

Definition findInsertPosition (position : Z) (nodes : list RGANode) : string :=
  let vnodes := visibleNodes nodes in
  if (position >? 0)%Z then
    match JS.get vnodes (position - 1) with
    | Some targetNode =>
        if bool_decide (id targetNode = "") then "root" else id targetNode
    | None => "root"
    end
  else "root".

Definition applyOperation (nodes : list RGANode) (newNode : RGANode)
    : list RGANode :=
  let insertIndex :=
    (JS.findIndex (λ n, Some (id n) = previousId newNode) nodes + 1)%Z in
  if (insertIndex =? 0)%Z then nodes
  else
    (* Check for existing node (conflict case) *)
    let existingIndex := JS.findIndex (λ n, id n = id newNode) nodes in
    if bool_decide (existingIndex ≠ (-1)%Z) then
      (* Last-write-wins conflict resolution *)
      match JS.get nodes existingIndex with
      | Some existing =>
          if (timestamp existing >=? timestamp newNode)%Z then nodes
          else JS.set nodes existingIndex newNode (* Replace existing node *)
      | None => nodes (* not reached *)
      end
    else
      (* Insert new node *)
      JS.slice nodes 0 insertIndex ++ [newNode]
        ++ JS.sliceFrom nodes insertIndex.

Definition handleInsert :=
  handleInsertAlways applyOperation findInsertPosition.
Definition handleDelete := handleDeleteMap applyOperation.

End Legacy.



(** ** The preset "Concurrent Delete and Insert" (bundle lines 393-506) *)

Module Examples.

Definition node (i v : string) (t : Z) (p : string) (r : bool) (a : Author)
    : RGANode :=
  {| id := i; value := v; timestamp := t; previousId := Some p;
     removed := r; author := a |}.

Definition deleteInsert_user1Text : string := "".
Definition deleteInsert_user2Text : string := "helXlo".

Definition deleteInsert_user1Nodes : list RGANode :=
  [ rootNode;
    node "h1" "h" 1006 "root" true user1;
    node "e1" "e" 1007 "h1" true user1;
    node "l1" "l" 1008 "e1" true user1;
    node "l2" "l" 1009 "l1" true user1;
    node "o1" "o" 1010 "l2" true user1 ].

Definition deleteInsert_user2Nodes : list RGANode :=
  [ rootNode;
    node "h1" "h" 1000 "root" false user1;
    node "e1" "e" 1001 "h1" false user1;
    node "l1" "l" 1002 "e1" false user1;
    node "x1" "X" 1005 "l1" false user2;
    node "l2" "l" 1003 "l1" false user1;
    node "o1" "o" 1004 "l2" false user1 ].

(** The "Load Example" button (lines 1133-1138). *)
Definition loadExample (u1Text u2Text : string)
    (u1Nodes u2Nodes : list RGANode) (st : Editor) : Editor :=
  mkEditor u1Nodes u2Nodes (networkDelay st) true
    (Z.of_nat (JS.strLength u1Text) + 1)
    (Z.of_nat (JS.strLength u2Text) + 1) (timers st).

(** The component freshly mounted: both replicas hold the root. *)
Definition mounted : Editor :=
  mkEditor [rootNode] [rootNode] 1000 false 0 0 [].

(** Load the preset, switch "Offline Mode" off, let the effect send both
    replicas' nodes, and let every timer fire. *)
Definition deleteInsert_synced : Editor :=
  let st := loadExample deleteInsert_user1Text deleteInsert_user2Text
              deleteInsert_user1Nodes deleteInsert_user2Nodes mounted in
  let st := setIsOffline false st in
  let st := syncEffect Sibling.applyOperation st in
  flushAll Sibling.applyOperation st.

(** A replica that holds one character, and operations other replicas may
    send it: a character typed in front of ["c"], one typed behind it, a
    later one typed in front, one whose predecessor the replica has never
    seen, and the tombstone of ["c"]. *)
Definition oneChar : list RGANode :=
  [ rootNode; node "c" "c" 10 "root" false user1 ].
Definition atStart : RGANode := node "a" "a" 20 "root" false user1.
Definition afterC : RGANode := node "b" "b" 15 "c" false user2.
Definition atStartLater : RGANode := node "d" "d" 30 "root" false user2.
Definition dangling : RGANode := node "z" "z" 40 "nowhere" false user2.
Definition tombC : RGANode := node "c" "c" 50 "root" true user1.

(** A newer copy of the root, as the full resend after "Offline Mode"
    would carry it had the root ever been rewritten. *)
Definition newerRoot : RGANode :=
  {| id := "root"; value := ""; timestamp := 1; previousId := None;
     removed := false; author := user1 |}.

(** A root that has been tombstoned, as a deletion of the first component
    can leave it. *)
Definition tombstonedRoot : RGANode :=
  {| id := "root"; value := ""; timestamp := 70; previousId := None;
     removed := true; author := user1 |}.

(** A replica that holds a character whose predecessor it does not hold,
    and the tombstone of that character. *)
Definition strayB : list RGANode :=
  [ rootNode; node "b" "b" 15 "c" false user2 ].
Definition tombB : RGANode := node "b" "b" 60 "c" true user2.

(** The preset "Delete Range with Mixed States" (bundle lines 507-612). *)
Definition deleteRange_user1Nodes : list RGANode :=
  [ rootNode;
    node "a1" "a" 1000 "root" false user1;
    node "b1" "b" 1006 "a1" true user1;
    node "c1" "c" 1002 "b1" false user1;
    node "d1" "d" 1007 "c1" true user1;
    node "e1" "e" 1004 "d1" false user1 ].

Definition deleteRange_user2Nodes : list RGANode :=
  [ rootNode;
    node "a1" "a" 1008 "root" true user2;
    node "b1" "b" 1001 "a1" false user1;
    node "c1" "c" 1009 "b1" true user2;
    node "d1" "d" 1003 "c1" false user1;
    node "e1" "e" 1004 "d1" false user1 ].

End Examples.

(** ** Notions used to state the properties *)

(** The ids held by a replica, in list order. *)
Definition ids (nodes : list RGANode) : list string := id <$> nodes.

(** Length of the longest prefix of [l] made of nodes the loop guard of
    [Sibling.applyOperation] accepts for [newNode]. *)
Fixpoint earlierRun (newNode : RGANode) (l : list RGANode) : nat :=
  match l with
  | n :: l' =>
      if Sibling.earlierSibling newNode n then S (earlierRun newNode l') else 0
  | [] => 0
  end.

(** [newNode] put behind the earlier siblings that open [l]. *)
Fixpoint place (newNode : RGANode) (l : list RGANode) : list RGANode :=
  match l with
  | n :: l' =>
      if Sibling.earlierSibling newNode n then n :: place newNode l'
      else newNode :: l
  | [] => [newNode]
  end.

(** [a] stands before [b] in [l]. *)
Definition before (a b : RGANode) (l : list RGANode) : Prop :=
  ∃ l1 l2 l3, l = l1 ++ a :: l2 ++ b :: l3.

(** The replica invariant on the root: it is first, it is not a tombstone,
    and no other node carries its id. *)
Definition rooted (nodes : list RGANode) : Prop :=
  ∃ r rest, nodes = r :: rest ∧ id r = "root" ∧ removed r = false
            ∧ Forall (λ n, id n ≠ "root") rest.

(** [position] addresses a place of the visible sequence: one of its
    [length + 1] gaps. *)
Definition validIndex (position : Z) (nodes : list RGANode) : Prop :=
  (0 ≤ position ≤ Z.of_nat (length (visibleSequence nodes)))%Z.

(** [new] is [old] with, at most, nodes tombstoned where they stand: the
    ids are the same in the same order, and a node that changed is a
    tombstone stamped [now]. *)
Definition tombstonedInPlace (now : Z) (old new : list RGANode) : Prop :=
  ids new = ids old
  ∧ ∀ j n', new !! j = Some n' →
      ∃ n, old !! j = Some n
           ∧ (n' = n ∨ (id n' = id n ∧ removed n' = true ∧ timestamp n' = now)).

(** The text of a replica as the specification counts it: the nodes that
    are neither tombstones nor the root, in list order.  It is read off the
    node list one node at a time and owes nothing to the component's
    [visibleNodes]. *)
Fixpoint characters (nodes : list RGANode) : list RGANode :=
  match nodes with
  | [] => []
  | n :: rest =>
      if removed n then characters rest
      else if String.eqb (id n) "root" then characters rest
      else n :: characters rest
  end.

(** [incoming.previousId] names a node the replica holds. *)
Definition resolves (s : list RGANode) (incoming : RGANode) : Prop :=
  ∃ m, m ∈ s ∧ Some (id m) = previousId incoming.

(** The newer of two versions of a node, the held one on a tie: what last
    write wins leaves when [incoming] arrives where [held] stands. *)
Definition newer (held incoming : RGANode) : RGANode :=
  if (timestamp held >=? timestamp incoming)%Z then held else incoming.

(** * Properties *)

(** ** Array primitives *)

Section ArrayFacts.
Context {A : Type}.
Implicit Types (arr : list A) (i : nat).

Lemma get_of_nat arr i : JS.get arr (Z.of_nat i) = arr !! i.
Proof.
  unfold JS.get. destruct (Z.ltb_spec (Z.of_nat i) 0); [lia|].
  by rewrite Nat2Z.id.
Qed.

Lemma set_of_nat arr i x : JS.set arr (Z.of_nat i) x = <[i := x]> arr.
Proof.
  unfold JS.set. destruct (Z.ltb_spec (Z.of_nat i) 0); [lia|].
  by rewrite Nat2Z.id.
Qed.

Lemma slice_prefix arr i : JS.slice arr 0 (Z.of_nat i) = take i arr.
Proof.
  unfold JS.slice, JS.clamp. simpl.
  destruct (Z.ltb_spec (Z.of_nat i) 0); [lia|].
  rewrite (Z.min_l 0) by lia. rewrite Z.sub_0_r, drop_0.
  destruct (decide (i ≤ length arr)) as [Hi|Hi].
  - rewrite Z.min_l by lia. by rewrite Nat2Z.id.
  - rewrite Z.min_r by lia. rewrite Nat2Z.id.
    rewrite !take_ge by lia. done.
Qed.

Lemma sliceFrom_suffix arr i : JS.sliceFrom arr (Z.of_nat i) = drop i arr.
Proof.
  unfold JS.sliceFrom, JS.slice, JS.clamp.
  destruct (Z.ltb_spec (Z.of_nat i) 0); [lia|].
  destruct (Z.ltb_spec (Z.of_nat (length arr)) 0); [lia|].
  rewrite (Z.min_l (Z.of_nat (length arr))) by lia.
  destruct (decide (i ≤ length arr)) as [Hi|Hi].
  - rewrite Z.min_l by lia. rewrite Nat2Z.id.
    apply take_ge. rewrite length_drop. lia.
  - rewrite Z.min_r by lia. rewrite Nat2Z.id.
    rewrite !drop_ge by lia. by rewrite take_nil.
Qed.

Lemma findIndex_Some (P : A → Prop) `{∀ x, Decision (P x)} arr i x :
  list_find P arr = Some (i, x) → JS.findIndex P arr = Z.of_nat i.
Proof. unfold JS.findIndex. by intros ->. Qed.

Lemma findIndex_None (P : A → Prop) `{∀ x, Decision (P x)} arr :
  list_find P arr = None → JS.findIndex P arr = (-1)%Z.
Proof. unfold JS.findIndex. by intros ->. Qed.

(** An index [findIndex] answers is inside the array, so the element read
    at it right after is there. *)
Lemma findIndex_in_range (P : A → Prop) `{∀ x, Decision (P x)} arr :
  JS.findIndex P arr ≠ (-1)%Z →
  ∃ x, JS.get arr (JS.findIndex P arr) = Some x ∧ P x.
Proof.
  unfold JS.findIndex.
  destruct (list_find P arr) as [[i x]|] eqn:Hfind; [|done].
  intros _. apply list_find_Some in Hfind as (Hi & HP & _).
  exists x. by rewrite get_of_nat.
Qed.

(** [arr.indexOf(arr.find(p))] is [arr.findIndex(p)]: value equality finds
    the reference [find] returned. *)
Lemma indexOf_find `{EqDecision A} (P : A → Prop) `{∀ x, Decision (P x)}
    arr i x :
  list_find P arr = Some (i, x) → JS.indexOf x arr = Z.of_nat i.
Proof.
  intros (Hi & HP & Hmin)%list_find_Some.
  unfold JS.indexOf. apply findIndex_Some with (x := x).
  apply list_find_Some. split_and!; [done..|].
  intros j y Hj Hlt ->. by apply (Hmin j x).
Qed.

End ArrayFacts.

(** ** The merge function with the sibling tie-break, case by case *)

Section SiblingCases.
Import Sibling.
Implicit Types (nodes : list RGANode) (newNode : RGANode).

Lemma loopGuard_lookup nodes newNode (i : nat) :
  loopGuard nodes newNode (Z.of_nat i) =
  match nodes !! i with Some n => earlierSibling newNode n | None => false end.
Proof.
  unfold loopGuard. rewrite get_of_nat.
  destruct (nodes !! i) as [n|] eqn:Hi; [|by rewrite andb_false_r].
  apply lookup_lt_Some in Hi.
  destruct (Z.ltb_spec (Z.of_nat i) (Z.of_nat (length nodes))); [done|lia].
Qed.

(** The loop leaves [insertIndex] behind the whole run of earlier siblings
    as soon as it is given [length nodes - insertIndex] turns. *)
Lemma advance_run nodes newNode (fuel i : nat) :
  length nodes - i ≤ fuel →
  advance fuel nodes newNode (Z.of_nat i)
  = Z.of_nat (i + earlierRun newNode (drop i nodes)).
Proof.
  revert i. induction fuel as [|fuel IH]; intros i Hfuel; simpl.
  - rewrite drop_ge by lia. simpl. f_equal. lia.
  - rewrite loopGuard_lookup.
    destruct (nodes !! i) as [n|] eqn:Hi.
    + rewrite (drop_S _ _ _ Hi). simpl.
      destruct (earlierSibling newNode n); [|f_equal; lia].
      replace (Z.of_nat i + 1)%Z with (Z.of_nat (S i)) by lia.
      rewrite IH by lia. f_equal. lia.
    + apply lookup_ge_None in Hi. rewrite drop_ge by lia. simpl.
      f_equal. lia.
Qed.

(** X2. The sibling loop always runs to its end: started anywhere, it
    stops within [length nodes] turns at an index where its guard is
    false, so the turn bound never cuts it short. *)
Lemma advance_exits nodes newNode (i : nat) :
  ∃ j : nat, advance (length nodes) nodes newNode (Z.of_nat i) = Z.of_nat j
             ∧ loopGuard nodes newNode (Z.of_nat j) = false.
Proof.
  exists (i + earlierRun newNode (drop i nodes)).
  split; [apply advance_run; lia|].
  rewrite loopGuard_lookup, <-lookup_drop.
  induction (drop i nodes) as [|n l IH]; simpl; [done|].
  destruct (earlierSibling newNode n) eqn:E; simpl; [|by rewrite E].
  apply IH.
Qed.

Lemma place_run newNode l :
  place newNode l
  = take (earlierRun newNode l) l ++ newNode :: drop (earlierRun newNode l) l.
Proof.
  induction l as [|n l IH]; simpl; [done|].
  destruct (earlierSibling newNode n); simpl; [by rewrite IH|done].
Qed.

Lemma applyOperation_existing nodes newNode i e :
  list_find (λ n, id n = id newNode) nodes = Some (i, e) →
  applyOperation nodes newNode
  = if (timestamp e >=? timestamp newNode)%Z then nodes
    else <[i := newNode]> nodes.
Proof.
  intros Hfind. unfold applyOperation.
  rewrite (findIndex_Some _ _ _ _ Hfind).
  rewrite bool_decide_true by lia.
  rewrite get_of_nat, set_of_nat.
  apply list_find_Some in Hfind as (-> & _). done.
Qed.

Lemma applyOperation_unresolved nodes newNode :
  list_find (λ n, id n = id newNode) nodes = None →
  list_find (λ n, Some (id n) = previousId newNode) nodes = None →
  applyOperation nodes newNode = nodes.
Proof.
  intros Hid Hprev. unfold applyOperation.
  rewrite (findIndex_None _ _ Hid).
  rewrite bool_decide_false by (intros ?; lia).
  unfold JS.find. by rewrite Hprev.
Qed.

Lemma applyOperation_fresh nodes newNode p x :
  list_find (λ n, id n = id newNode) nodes = None →
  list_find (λ n, Some (id n) = previousId newNode) nodes = Some (p, x) →
  applyOperation nodes newNode
  = take (S p) nodes ++ place newNode (drop (S p) nodes).
Proof.
  intros Hid Hprev. unfold applyOperation.
  rewrite (findIndex_None _ _ Hid).
  rewrite bool_decide_false by (intros ?; lia).
  unfold JS.find. rewrite Hprev. simpl.
  rewrite (indexOf_find _ _ _ _ Hprev).
  replace (Z.of_nat p + 1)%Z with (Z.of_nat (S p)) by lia.
  rewrite advance_run by lia.
  rewrite slice_prefix, sliceFrom_suffix, place_run.
  set (k := earlierRun newNode (drop (S p) nodes)).
  rewrite drop_drop, <-take_take_drop, <-app_assoc. done.
Qed.

End SiblingCases.

(** ** The merge function of src/index.tsx, case by case *)

Section IndexCases.
Implicit Types (nodes : list RGANode) (newNode : RGANode).

Lemma Index_unresolved nodes newNode :
  list_find (λ n, Some (id n) = previousId newNode) nodes = None →
  Index.applyOperation nodes newNode = nodes.
Proof. intros Hprev. unfold Index.applyOperation, JS.find. by rewrite Hprev. Qed.

Lemma Index_existing nodes newNode p x i e :
  list_find (λ n, Some (id n) = previousId newNode) nodes = Some (p, x) →
  list_find (λ n, id n = id newNode) nodes = Some (i, e) →
  Index.applyOperation nodes newNode
  = if (timestamp e >=? timestamp newNode)%Z then nodes
    else <[i := newNode]> nodes.
Proof.
  intros Hprev Hfind. unfold Index.applyOperation, JS.find.
  rewrite Hprev. simpl.
  rewrite (findIndex_Some _ _ _ _ Hfind).
  rewrite bool_decide_true by lia.
  rewrite get_of_nat, set_of_nat.
  apply list_find_Some in Hfind as (-> & _). done.
Qed.

Lemma Index_fresh nodes newNode p x :
  list_find (λ n, Some (id n) = previousId newNode) nodes = Some (p, x) →
  list_find (λ n, id n = id newNode) nodes = None →
  Index.applyOperation nodes newNode
  = take (S p) nodes ++ newNode :: drop (S p) nodes.
Proof.
  intros Hprev Hid. unfold Index.applyOperation, JS.find.
  rewrite Hprev. simpl.
  rewrite (findIndex_None _ _ Hid).
  rewrite bool_decide_false by (intros ?; lia).
  rewrite (indexOf_find _ _ _ _ Hprev).
  replace (Z.of_nat p + 1)%Z with (Z.of_nat (S p)) by lia.
  by rewrite slice_prefix, sliceFrom_suffix.
Qed.

End IndexCases.

(** ** Looking a node up after a merge step *)

Section Lookup.
Implicit Types (nodes l : list RGANode) (newNode : RGANode).

Lemma place_elem newNode l n : n ∈ place newNode l ↔ n = newNode ∨ n ∈ l.
Proof.
  induction l as [|y l IH]; simpl.
  - rewrite list_elem_of_singleton, elem_of_nil. tauto.
  - destruct (Sibling.earlierSibling newNode y).
    + rewrite !elem_of_cons, IH. tauto.
    + rewrite !elem_of_cons. tauto.
Qed.

Lemma place_length newNode l : length (place newNode l) = S (length l).
Proof.
  induction l as [|y l IH]; simpl; [done|].
  destruct (Sibling.earlierSibling newNode y); simpl; by rewrite ?IH.
Qed.

(** A search that stops inside the first [S p] nodes does not see what
    follows them. *)
Lemma list_find_front (P : RGANode → Prop) `{∀ n, Decision (P n)}
    nodes p x tail :
  list_find P nodes = Some (p, x) →
  list_find P (take (S p) nodes ++ tail) = Some (p, x).
Proof.
  intros (Hp & HP & Hmin)%list_find_Some.
  apply list_find_app_l, list_find_Some. split_and!; [|done|].
  - rewrite lookup_take_lt by lia. done.
  - intros j y Hj Hlt. apply (Hmin j y); [|done].
    by rewrite lookup_take_lt in Hj by lia.
Qed.

(** Overwriting the first node that carries [newNode]'s id by [newNode]
    keeps it the first such node. *)
Lemma list_find_overwrite nodes newNode i e :
  list_find (λ n, id n = id newNode) nodes = Some (i, e) →
  list_find (λ n, id n = id newNode) (<[i := newNode]> nodes)
  = Some (i, newNode).
Proof.
  intros (Hi & _ & Hmin)%list_find_Some.
  apply list_find_Some. split_and!; [|done|].
  - apply list_lookup_insert_eq. by eapply lookup_lt_Some.
  - intros j y Hj Hlt. rewrite list_lookup_insert_ne in Hj by lia.
    by apply (Hmin j y).
Qed.

(** A fresh node that has been put into the list is the first, and only,
    node found under its id. *)
Lemma list_find_inserted nodes newNode l :
  list_find (λ n, id n = id newNode) nodes = None →
  (∀ n, n ∈ l → n = newNode ∨ n ∈ nodes) →
  newNode ∈ l →
  ∃ k, list_find (λ n, id n = id newNode) l = Some (k, newNode).
Proof.
  intros Hnone Hsub Hin.
  destruct (list_find_elem_of (λ n, id n = id newNode) l newNode Hin eq_refl)
    as [[k y] Hk].
  exists k. rewrite Hk. do 2 f_equal.
  pose proof Hk as (Hy & Hid & _)%list_find_Some.
  apply list_elem_of_lookup_2 in Hy.
  destruct (Hsub y Hy) as [->|Hy']; [done|].
  apply list_find_None in Hnone.
  rewrite Forall_forall in Hnone. by destruct (Hnone y Hy').
Qed.

(** Searches that only read ids cannot tell two lists with the same ids
    apart. *)
Lemma list_find_ids (Q : string → Prop) `{∀ s, Decision (Q s)} nodes nodes' :
  ids nodes = ids nodes' →
  is_Some (list_find (λ n, Q (id n)) nodes) →
  is_Some (list_find (λ n, Q (id n)) nodes').
Proof.
  intros Hids [[i x] (Hi & HQ & _)%list_find_Some].
  assert (ids nodes' !! i = Some (id x)) as Hi'.
  { rewrite <-Hids. unfold ids. by rewrite list_lookup_fmap, Hi. }
  unfold ids in Hi'. rewrite list_lookup_fmap in Hi'.
  destruct (nodes' !! i) as [y|] eqn:Hy; [|done].
  simpl in Hi'. injection Hi' as Hxy.
  apply (list_find_elem_of _ nodes' y).
  - by eapply list_elem_of_lookup_2.
  - by rewrite Hxy.
Qed.

Lemma ids_overwrite nodes newNode i e :
  nodes !! i = Some e → id e = id newNode →
  ids (<[i := newNode]> nodes) = ids nodes.
Proof.
  intros Hi Hid. unfold ids. rewrite list_fmap_insert.
  apply list_insert_id. by rewrite list_lookup_fmap, Hi, <-Hid.
Qed.

End Lookup.

(** ** Last write wins on an id the replica already holds *)

Lemma elem_of_ids_find (nodes : list RGANode) (i : string) :
  i ∈ ids nodes → ∃ k e, list_find (λ n, id n = i) nodes = Some (k, e).
Proof.
  unfold ids. intros (n & -> & Hn)%list_elem_of_fmap.
  destruct (list_find_elem_of (λ m, id m = id n) nodes n Hn eq_refl)
    as [[k e] Hk].
  by exists k, e.
Qed.

Lemma not_elem_of_ids_find (nodes : list RGANode) (i : string) :
  i ∉ ids nodes → list_find (λ n, id n = i) nodes = None.
Proof.
  intros Hnot. apply list_find_None, Forall_forall. intros n Hn Hid.
  apply Hnot. unfold ids. apply list_elem_of_fmap. by exists n.
Qed.

(** C3. Last write wins, as each merge function has it.  When the replica
    already holds a node with the incoming id (the first such node is the
    existing one), an incoming node that is not strictly newer is discarded
    and the list is returned as it was, in the second component and in
    src/index.tsx alike.  A strictly newer one takes the existing node's
    place in the second component, at the same index, every other position
    keeping its node; in src/index.tsx it does so exactly when its
    [previousId] names a node of the replica, and the list is returned as
    it was when it does not. *)
Theorem applyOperation_last_write_wins (s : list RGANode) (incoming : RGANode) :
  id incoming ∈ ids s →
  ∃ i existing,
    s !! i = Some existing ∧ id existing = id incoming ∧
    (∀ j n, s !! j = Some n → j < i → id n ≠ id incoming) ∧
    ((timestamp existing >= timestamp incoming)%Z →
       Sibling.applyOperation s incoming = s
       ∧ Index.applyOperation s incoming = s) ∧
    ((timestamp incoming > timestamp existing)%Z →
       Sibling.applyOperation s incoming = <[i := incoming]> s ∧
       length (Sibling.applyOperation s incoming) = length s ∧
       Sibling.applyOperation s incoming !! i = Some incoming ∧
       (∀ j, j ≠ i → Sibling.applyOperation s incoming !! j = s !! j) ∧
       ids (Sibling.applyOperation s incoming) = ids s ∧
       (resolves s incoming →
          Index.applyOperation s incoming = <[i := incoming]> s) ∧
       (¬ resolves s incoming → Index.applyOperation s incoming = s)).
Proof.
  intros (i & e & Hfind)%elem_of_ids_find.
  pose proof Hfind as (Hi & Hid & Hmin)%list_find_Some.
  exists i, e. split_and!; [done..| |].
  - intros Hge. split.
    + rewrite (applyOperation_existing _ _ _ _ Hfind).
      destruct (Z.geb_spec (timestamp e) (timestamp incoming)); [done|lia].
    + destruct (list_find (λ n, Some (id n) = previousId incoming) s)
        as [[p x]|] eqn:Hprev; [|by apply Index_unresolved].
      rewrite (Index_existing _ _ _ _ _ _ Hprev Hfind).
      destruct (Z.geb_spec (timestamp e) (timestamp incoming)); [done|lia].
  - intros Hlt. rewrite (applyOperation_existing _ _ _ _ Hfind).
    destruct (Z.geb_spec (timestamp e) (timestamp incoming)) as [|Hnewer];
      [lia|].
    split_and!.
    + done.
    + by rewrite length_insert.
    + apply list_lookup_insert_eq. by eapply lookup_lt_Some.
    + intros j Hj. by rewrite list_lookup_insert_ne.
    + by eapply ids_overwrite.
    + intros (m & Hm & Hprev).
      destruct (list_find_elem_of (λ n, Some (id n) = previousId incoming)
                  s m Hm Hprev) as [[p x] Hfound].
      rewrite (Index_existing _ _ _ _ _ _ Hfound Hfind).
      destruct (Z.geb_spec (timestamp e) (timestamp incoming)); [lia|done].
    + intros Hnone. apply Index_unresolved, list_find_None, Forall_forall.
      intros m Hm Hprev. apply Hnone. by exists m.
Qed.

(** Last write wins as the specification words it does not hold of
    src/index.tsx: a strictly newer copy of a node the replica holds is
    discarded, and the held node stays, when the copy's
    [previousId] names no node of the replica.  The second component puts
    the same copy in the held node's place. *)
Lemma Index_discards_newer_copy :
  id Examples.newerRoot ∈ ids [rootNode]
  ∧ (timestamp Examples.newerRoot > timestamp rootNode)%Z
  ∧ Index.applyOperation [rootNode] Examples.newerRoot = [rootNode]
  ∧ Sibling.applyOperation [rootNode] Examples.newerRoot
    = [Examples.newerRoot]
  ∧ id Examples.tombB ∈ ids Examples.strayB
  ∧ Index.applyOperation Examples.strayB Examples.tombB = Examples.strayB
  ∧ Sibling.applyOperation Examples.strayB Examples.tombB
    = [rootNode; Examples.tombB].
Proof.
  split_and!; try reflexivity.
  - apply (bool_decide_unpack _). vm_compute. exact I.
  - apply (bool_decide_unpack _). vm_compute. exact I.
Qed.

(** In src/index.tsx the predecessor is tested first: the same holds there
    once [incoming.previousId] resolves, and nothing happens when it does
    not. *)
Lemma Index_last_write_wins (s : list RGANode) (incoming : RGANode) p x i e :
  list_find (λ n, Some (id n) = previousId incoming) s = Some (p, x) →
  list_find (λ n, id n = id incoming) s = Some (i, e) →
  Index.applyOperation s incoming = Sibling.applyOperation s incoming.
Proof.
  intros Hprev Hfind.
  by rewrite (Index_existing _ _ _ _ _ _ Hprev Hfind),
             (applyOperation_existing _ _ _ _ Hfind).
Qed.

(** ** Applying an operation twice *)

Lemma Sibling_idempotent (s : list RGANode) (op : RGANode) :
  Sibling.applyOperation (Sibling.applyOperation s op) op
  = Sibling.applyOperation s op.
Proof.
  destruct (list_find (λ n, id n = id op) s) as [[i e]|] eqn:Hfind.
  - rewrite (applyOperation_existing _ _ _ _ Hfind).
    destruct (Z.geb_spec (timestamp e) (timestamp op)).
    + rewrite (applyOperation_existing _ _ _ _ Hfind).
      destruct (Z.geb_spec (timestamp e) (timestamp op)); [done|lia].
    + rewrite (applyOperation_existing _ _ _ _ (list_find_overwrite _ _ _ _ Hfind)).
      destruct (Z.geb_spec (timestamp op) (timestamp op)); [done|lia].
  - destruct (list_find (λ n, Some (id n) = previousId op) s)
      as [[p x]|] eqn:Hprev.
    + rewrite (applyOperation_fresh _ _ _ _ Hfind Hprev).
      destruct (list_find_inserted s op
                  (take (S p) s ++ place op (drop (S p) s)) Hfind) as [k Hk].
      * intros n [Hn|Hn]%elem_of_app.
        -- right. by apply (subseteq_take (S p) s).
        -- apply place_elem in Hn as [->|Hn]; [by left|right].
           by apply (subseteq_drop (S p) s).
      * apply elem_of_app. right. apply place_elem. by left.
      * rewrite (applyOperation_existing _ _ _ _ Hk).
        destruct (Z.geb_spec (timestamp op) (timestamp op)); [done|lia].
    + by rewrite !(applyOperation_unresolved _ _ Hfind Hprev).
Qed.

Lemma Index_idempotent (s : list RGANode) (op : RGANode) :
  Index.applyOperation (Index.applyOperation s op) op
  = Index.applyOperation s op.
Proof.
  destruct (list_find (λ n, Some (id n) = previousId op) s)
    as [[p x]|] eqn:Hprev; [|by rewrite !(Index_unresolved _ _ Hprev)].
  destruct (list_find (λ n, id n = id op) s) as [[i e]|] eqn:Hfind.
  - rewrite (Index_existing _ _ _ _ _ _ Hprev Hfind).
    destruct (Z.geb_spec (timestamp e) (timestamp op)).
    + rewrite (Index_existing _ _ _ _ _ _ Hprev Hfind).
      destruct (Z.geb_spec (timestamp e) (timestamp op)); [done|lia].
    + pose proof Hfind as (Hi & Hid & _)%list_find_Some.
      destruct (list_find_ids (λ s, Some s = previousId op) s
                  (<[i := op]> s)) as [[p' x'] Hprev'].
      { symmetry. by eapply ids_overwrite. }
      { by rewrite Hprev. }
      rewrite (Index_existing _ _ _ _ _ _ Hprev'
                 (list_find_overwrite _ _ _ _ Hfind)).
      destruct (Z.geb_spec (timestamp op) (timestamp op)); [done|lia].
  - rewrite (Index_fresh _ _ _ _ Hprev Hfind).
    destruct (list_find_inserted s op
                (take (S p) s ++ op :: drop (S p) s) Hfind) as [k Hk].
    + intros n [Hn|[->|Hn]%elem_of_cons]%elem_of_app.
      * right. by apply (subseteq_take (S p) s).
      * by left.
      * right. by apply (subseteq_drop (S p) s).
    + apply elem_of_app. right. apply elem_of_cons. by left.
    + rewrite (Index_existing _ _ _ _ _ _
                 (list_find_front _ _ _ _ _ Hprev) Hk).
      destruct (Z.geb_spec (timestamp op) (timestamp op)); [done|lia].
Qed.

(** C4. Idempotence: delivering an operation a second time changes
    nothing, [apply (apply s op) op = apply s op], for the merge function
    with the sibling tie-break and for the one of src/index.tsx. *)
Theorem applyOperation_idempotent (s : list RGANode) (op : RGANode) :
  Sibling.applyOperation (Sibling.applyOperation s op) op
  = Sibling.applyOperation s op
  ∧ Index.applyOperation (Index.applyOperation s op) op
    = Index.applyOperation s op.
Proof. split; [apply Sibling_idempotent|apply Index_idempotent]. Qed.

(** ** The shape of a merge step

    A merge step returns the list itself, or the list with one node
    overwritten by a node of the same id, or the list with the new node
    inserted. *)

Section Shape.
Implicit Types (s : list RGANode) (op : RGANode).

Lemma Sibling_shape s op :
  Sibling.applyOperation s op = s
  ∨ (∃ i e, s !! i = Some e ∧ id e = id op
            ∧ Sibling.applyOperation s op = <[i := op]> s)
  ∨ (∃ k, (id op ∉ ids s)
          ∧ Sibling.applyOperation s op = take k s ++ op :: drop k s).
Proof.
  destruct (list_find (λ n, id n = id op) s) as [[i e]|] eqn:Hfind.
  - rewrite (applyOperation_existing _ _ _ _ Hfind).
    apply list_find_Some in Hfind as (Hi & Hid & _).
    destruct (timestamp e >=? timestamp op)%Z; [by left|].
    right; left. by exists i, e.
  - destruct (list_find (λ n, Some (id n) = previousId op) s)
      as [[p x]|] eqn:Hprev.
    + right; right. rewrite (applyOperation_fresh _ _ _ _ Hfind Hprev).
      exists (S p + earlierRun op (drop (S p) s)). split.
      * intros (k & e & Hk)%elem_of_ids_find. by rewrite Hk in Hfind.
      * by rewrite place_run, drop_drop, <-take_take_drop, <-app_assoc.
    + left. by apply applyOperation_unresolved.
Qed.

Lemma Index_shape s op :
  Index.applyOperation s op = s
  ∨ (∃ i e, s !! i = Some e ∧ id e = id op
            ∧ Index.applyOperation s op = <[i := op]> s)
  ∨ (∃ k, (id op ∉ ids s)
          ∧ Index.applyOperation s op = take k s ++ op :: drop k s).
Proof.
  destruct (list_find (λ n, Some (id n) = previousId op) s)
    as [[p x]|] eqn:Hprev; [|left; by apply Index_unresolved].
  destruct (list_find (λ n, id n = id op) s) as [[i e]|] eqn:Hfind.
  - rewrite (Index_existing _ _ _ _ _ _ Hprev Hfind).
    apply list_find_Some in Hfind as (Hi & Hid & _).
    destruct (timestamp e >=? timestamp op)%Z; [by left|].
    right; left. by exists i, e.
  - right; right. rewrite (Index_fresh _ _ _ _ Hprev Hfind).
    exists (S p). split; [|done].
    intros (k & e & Hk)%elem_of_ids_find. by rewrite Hk in Hfind.
Qed.

Lemma shape_ids s op (s' : list RGANode) (i : string) :
  s' = s
  ∨ (∃ j e, s !! j = Some e ∧ id e = id op ∧ s' = <[j := op]> s)
  ∨ (∃ k, (id op ∉ ids s) ∧ s' = take k s ++ op :: drop k s) →
  i ∈ ids s → i ∈ ids s'.
Proof.
  intros [->|[(j & e & Hj & Hid & ->)|(k & _ & ->)]] Hi; [done| |].
  - by rewrite (ids_overwrite _ _ _ _ Hj Hid).
  - unfold ids in *. rewrite <-(take_drop k s) in Hi.
    rewrite fmap_app, elem_of_app in Hi.
    rewrite fmap_app, fmap_cons, elem_of_app, elem_of_cons. tauto.
Qed.

Lemma shape_length s op (s' : list RGANode) :
  s' = s
  ∨ (∃ j e, s !! j = Some e ∧ id e = id op ∧ s' = <[j := op]> s)
  ∨ (∃ k, (id op ∉ ids s) ∧ s' = take k s ++ op :: drop k s) →
  length s ≤ length s'.
Proof.
  intros [->|[(j & e & Hj & Hid & ->)|(k & _ & ->)]]; [done| |].
  - by rewrite length_insert.
  - rewrite length_app, length_cons, length_take, length_drop. lia.
Qed.

(** A merge step for an id the replica holds never moves or drops a node:
    position by position, the node is the old one or has been overwritten
    by the operation. *)
Lemma shape_held s op (s' : list RGANode) :
  id op ∈ ids s →
  s' = s
  ∨ (∃ j e, s !! j = Some e ∧ id e = id op ∧ s' = <[j := op]> s)
  ∨ (∃ k, (id op ∉ ids s) ∧ s' = take k s ++ op :: drop k s) →
  ids s' = ids s
  ∧ ∀ j n', s' !! j = Some n' →
      ∃ n, s !! j = Some n ∧ (n' = n ∨ (n' = op ∧ id n = id op)).
Proof.
  intros Hheld [->|[(j & e & Hj & Hid & ->)|(k & Hnot & _)]]; [| |done].
  - split; [done|]. intros j n' Hj. exists n'. auto.
  - split; [by eapply ids_overwrite|].
    intros j' n' Hj'. destruct (decide (j' = j)) as [->|Hne].
    + rewrite list_lookup_insert_eq in Hj' by (by eapply lookup_lt_Some).
      injection Hj' as <-. exists e. auto.
    + rewrite list_lookup_insert_ne in Hj' by done. exists n'. auto.
Qed.

End Shape.

(** ** The edit entry points *)

Section EntryPoints.
Variable applyOperation : list RGANode → RGANode → list RGANode.
Implicit Types (st : Editor) (a author : Author).

Lemma nodesOf_setCursor a author f st :
  nodesOf a (setCursor author f st) = nodesOf a st.
Proof. by destruct a, author. Qed.

Lemma nodesOf_setTimeout a t st : nodesOf a (setTimeout t st) = nodesOf a st.
Proof. by destruct a. Qed.

Lemma nodesOf_setNodes a author f st :
  nodesOf a (setNodes author f st)
  = if decide (a = author) then f (nodesOf a st) else nodesOf a st.
Proof. by destruct a, author. Qed.

Lemma nodesOf_updateNodes a author node (immediateUpdate : bool) st :
  nodesOf a (updateNodes applyOperation author node immediateUpdate st)
  = if immediateUpdate && bool_decide (a = author)
    then applyOperation (nodesOf a st) node
    else nodesOf a st.
Proof.
  unfold updateNodes.
  destruct (negb (isOffline st)); rewrite ?nodesOf_setTimeout;
    destruct immediateUpdate; simpl; rewrite ?nodesOf_setNodes;
    by destruct a, author.
Qed.

Lemma timers_updateNodes author node (immediateUpdate : bool) st :
  timers (updateNodes applyOperation author node immediateUpdate st)
  = if isOffline st then timers st
    else timers st ++ [mkTimer (peer author) (Apply node) (networkDelay st)].
Proof.
  unfold updateNodes.
  by destruct (isOffline st), immediateUpdate, author.
Qed.

Lemma timers_setCursor author f st : timers (setCursor author f st) = timers st.
Proof. by destruct author. Qed.

Lemma nodesOf_fire a k t st :
  timers st !! k = Some t →
  nodesOf a (fire applyOperation k st)
  = if decide (a = recipient t)
    then runCallback applyOperation (callback t) (nodesOf a st)
    else nodesOf a st.
Proof. unfold fire. intros ->. by destruct a, (recipient t). Qed.

Lemma timers_fire k t st :
  timers st !! k = Some t →
  timers (fire applyOperation k st) = delete k (timers st).
Proof. unfold fire. by intros ->. Qed.

Lemma get_elem_of {A} (arr : list A) (i : Z) (x : A) :
  JS.get arr i = Some x → x ∈ arr.
Proof.
  unfold JS.get. destruct (i <? 0)%Z; [done|]. apply list_elem_of_lookup_2.
Qed.

End EntryPoints.

(** ** An operation whose predecessor the replica does not hold *)

(** C6. An incoming node whose id the replica does not hold and whose
    [previousId] matches no node of the replica is dropped: the merge
    function returns the list unchanged (it is total, so it cannot fail),
    and once the delivery has run nothing remembers the node. *)
Theorem unresolvable_predecessor_dropped (s : list RGANode) (incoming : RGANode) :
  id incoming ∉ ids s →
  (∀ n, n ∈ s → Some (id n) ≠ previousId incoming) →
  Sibling.applyOperation s incoming = s
  ∧ Index.applyOperation s incoming = s
  ∧ ∀ st k to d,
      nodesOf to st = s →
      timers st !! k = Some (mkTimer to (Apply incoming) d) →
      user1Nodes (fire Sibling.applyOperation k st) = user1Nodes st
      ∧ user2Nodes (fire Sibling.applyOperation k st) = user2Nodes st
      ∧ timers (fire Sibling.applyOperation k st) = delete k (timers st).
Proof.
  intros Hid%not_elem_of_ids_find Hprev.
  assert (list_find (λ n, Some (id n) = previousId incoming) s = None)
    as Hnone by (by apply list_find_None, Forall_forall).
  pose proof (applyOperation_unresolved _ _ Hid Hnone) as Hsib.
  split_and!; [done|by apply Index_unresolved|].
  intros st k to d <- Hk.
  pose proof (nodesOf_fire Sibling.applyOperation user1 _ _ _ Hk) as H1.
  pose proof (nodesOf_fire Sibling.applyOperation user2 _ _ _ Hk) as H2.
  simpl in H1, H2. split_and!.
  - rewrite H1. destruct to; simpl; [apply Hsib|done].
  - rewrite H2. destruct to; simpl; [done|apply Hsib].
  - by eapply timers_fire.
Qed.

Lemma unresolvable_predecessor_dropped_witness :
  (id Examples.dangling ∉ ids Examples.oneChar)
  ∧ Sibling.applyOperation Examples.oneChar Examples.dangling
    = Examples.oneChar
  ∧ Index.applyOperation Examples.oneChar Examples.dangling
    = Examples.oneChar.
Proof.
  assert (id Examples.dangling ∉ ids Examples.oneChar) as Hid
    by (apply (bool_decide_unpack _); vm_compute; exact I).
  split; [exact Hid|].
  destruct (unresolvable_predecessor_dropped
              Examples.oneChar Examples.dangling Hid) as (H1 & H2 & _).
  - apply Forall_forall. apply (bool_decide_unpack _). vm_compute. exact I.
  - split; [exact H1|exact H2].
Defined.

(** ** Nothing is ever taken out of a replica *)

Section Deletion.
Variable applyOperation : list RGANode → RGANode → list RGANode.
Hypothesis shape : ∀ s op,
  applyOperation s op = s
  ∨ (∃ i e, s !! i = Some e ∧ id e = id op
            ∧ applyOperation s op = <[i := op]> s)
  ∨ (∃ k, (id op ∉ ids s)
          ∧ applyOperation s op = take k s ++ op :: drop k s).
Implicit Types (st : Editor) (a author : Author).

Lemma tombstonedInPlace_refl now (s : list RGANode) : tombstonedInPlace now s s.
Proof. split; [done|]. intros j n' Hj. exists n'. auto. Qed.

Lemma updateNodes_tombstone a author target now (immediateUpdate : bool) st :
  target ∈ nodesOf author st →
  tombstonedInPlace now (nodesOf a st)
    (nodesOf a (updateNodes applyOperation author
                  (tombstone target now) immediateUpdate st)).
Proof.
  intros Htarget. rewrite nodesOf_updateNodes.
  destruct immediateUpdate; simpl; [|apply tombstonedInPlace_refl].
  case_bool_decide as Ha; [subst a|apply tombstonedInPlace_refl].
  destruct (shape_held (nodesOf author st) (tombstone target now)
              (applyOperation (nodesOf author st) (tombstone target now)))
    as [Hids Hnodes]; [|apply shape|].
  { unfold ids. apply list_elem_of_fmap. by exists target. }
  split; [done|]. intros j n' Hj.
  destruct (Hnodes j n' Hj) as (n & Hn & [->|[-> Hid]]); exists n; auto.
Qed.

Lemma handleDelete_tombstones position author (immediateUpdate : bool) now st a :
  tombstonedInPlace now (nodesOf a st)
    (nodesOf a (handleDelete applyOperation position author
                  immediateUpdate now st)).
Proof.
  unfold handleDelete.
  destruct (JS.get _ _) as [target|] eqn:Hget; [|apply tombstonedInPlace_refl].
  rewrite nodesOf_setCursor. apply updateNodes_tombstone.
  apply get_elem_of in Hget. unfold visibleNodes in Hget.
  by apply list_elem_of_filter in Hget as [_ ?].
Qed.

Lemma handleDeleteResend_tombstones position author (immediateUpdate : bool)
    now st a :
  tombstonedInPlace now (nodesOf a st)
    (nodesOf a (handleDeleteResend applyOperation position author
                  immediateUpdate now st)).
Proof.
  unfold handleDeleteResend.
  destruct (JS.get _ _) as [target|] eqn:Hget; [|apply tombstonedInPlace_refl].
  assert (target ∈ nodesOf author st) as Htarget.
  { apply get_elem_of in Hget. unfold visibleNodes in Hget.
    by apply list_elem_of_filter in Hget as [_ ?]. }
  destruct (negb (isOffline st));
    rewrite ?nodesOf_setTimeout, nodesOf_setCursor;
    by apply updateNodes_tombstone.
Qed.

End Deletion.

(** C7. A merge step keeps every id the replica holds and never shortens
    the list; a deletion leaves both replicas' lists with the same ids in
    the same order, and the only node it may change is overwritten, where
    it stands, by a tombstone ([removed = true]) with the fresh timestamp. *)
Theorem history_is_never_destroyed (s : list RGANode) (op : RGANode)
    (st : Editor) (position : Z) (author a : Author) (immediateUpdate : bool)
    (now : Z) :
  ((∀ i, i ∈ ids s → i ∈ ids (Sibling.applyOperation s op))
   ∧ length s ≤ length (Sibling.applyOperation s op))
  ∧ ((∀ i, i ∈ ids s → i ∈ ids (Index.applyOperation s op))
     ∧ length s ≤ length (Index.applyOperation s op))
  ∧ tombstonedInPlace now (nodesOf a st)
      (nodesOf a (Index.handleDelete position author immediateUpdate now st))
  ∧ tombstonedInPlace now (nodesOf a st)
      (nodesOf a (Sibling.handleDelete position author immediateUpdate now st)).
Proof.
  split_and!.
  - intros i. apply (shape_ids s op), Sibling_shape.
  - apply (shape_length s op), Sibling_shape.
  - intros i. apply (shape_ids s op), Index_shape.
  - apply (shape_length s op), Index_shape.
  - apply handleDelete_tombstones, Index_shape.
  - apply handleDeleteResend_tombstones, Sibling_shape.
Qed.

(** ** Siblings are ordered by timestamp *)

Section Siblings.
Implicit Types (s l : list RGANode) (a b n : RGANode).

Lemma earlierSibling_true n y :
  Sibling.earlierSibling n y = true
  ↔ previousId y = previousId n ∧ (timestamp y < timestamp n)%Z.
Proof.
  unfold Sibling.earlierSibling.
  rewrite andb_true_iff, bool_decide_eq_true, Z.ltb_lt. done.
Qed.

Lemma earlierRun_inside n l j :
  j < earlierRun n l →
  ∃ y, l !! j = Some y ∧ previousId y = previousId n
       ∧ (timestamp y < timestamp n)%Z.
Proof.
  revert j. induction l as [|y l IH]; intros j; simpl; [lia|].
  destruct (Sibling.earlierSibling n y) eqn:E; [|lia].
  destruct j as [|j]; simpl.
  - intros _. exists y. by apply earlierSibling_true in E as [? ?].
  - intros Hj. apply IH. lia.
Qed.

Lemma earlierRun_stops n l y :
  l !! earlierRun n l = Some y →
  ¬ (previousId y = previousId n ∧ (timestamp y < timestamp n)%Z).
Proof.
  induction l as [|z l IH]; simpl; [done|].
  destruct (Sibling.earlierSibling n z) eqn:E; simpl; [done|].
  intros [= ->] H%earlierSibling_true. congruence.
Qed.

Lemma place_comm a b l :
  previousId b = previousId a → (timestamp a < timestamp b)%Z →
  place b (place a l) = place a (place b l).
Proof.
  intros Hprev Hlt.
  assert (Sibling.earlierSibling b a = true) as Hba
    by (apply earlierSibling_true; split; [done|lia]).
  assert (Sibling.earlierSibling a b = false) as Hab.
  { apply not_true_is_false. intros [_ ?]%earlierSibling_true. lia. }
  induction l as [|y l IH]; simpl; [by rewrite Hba, Hab|].
  destruct (Sibling.earlierSibling a y) eqn:Ea.
  - assert (Sibling.earlierSibling b y = true) as Eb.
    { apply earlierSibling_true in Ea as [? ?].
      apply earlierSibling_true. split; [congruence|lia]. }
    simpl. rewrite Eb. simpl. rewrite Ea. by rewrite IH.
  - simpl. rewrite Hba. simpl.
    destruct (Sibling.earlierSibling b y) eqn:Eb; simpl.
    + by rewrite Ea.
    + by rewrite Hab.
Qed.

Lemma place_place_before a b l :
  previousId b = previousId a → (timestamp a < timestamp b)%Z →
  before a b (place b (place a l)).
Proof.
  intros Hprev Hlt.
  assert (Sibling.earlierSibling b a = true) as Hba
    by (apply earlierSibling_true; split; [done|lia]).
  induction l as [|y l IH]; simpl.
  - rewrite Hba. by exists [], [], [].
  - destruct (Sibling.earlierSibling a y) eqn:Ea.
    + assert (Sibling.earlierSibling b y = true) as Eb.
      { apply earlierSibling_true in Ea as [? ?].
        apply earlierSibling_true. split; [congruence|lia]. }
      simpl. rewrite Eb. destruct IH as (l1 & l2 & l3 & ->).
      by exists (y :: l1), l2, l3.
    + simpl. rewrite Hba.
      exists [], (take (earlierRun b (y :: l)) (y :: l)),
             (drop (earlierRun b (y :: l)) (y :: l)).
      by rewrite <-place_run.
Qed.

Lemma before_app_l a b l0 l : before a b l → before a b (l0 ++ l).
Proof.
  intros (l1 & l2 & l3 & ->). exists (l0 ++ l1), l2, l3.
  by rewrite <-app_assoc.
Qed.

Lemma visibleSequence_app l1 l2 :
  visibleSequence (l1 ++ l2) = visibleSequence l1 ++ visibleSequence l2.
Proof. unfold visibleSequence, visibleNodes. by rewrite !filter_app. Qed.

Lemma visibleSequence_cons_shown a l :
  removed a = false → id a ≠ "root" →
  visibleSequence (a :: l) = a :: visibleSequence l.
Proof.
  intros Ha Hid. unfold visibleSequence, visibleNodes.
  rewrite filter_cons, decide_True by done.
  by rewrite filter_cons, decide_True by done.
Qed.

Lemma before_visibleSequence a b l :
  removed a = false → removed b = false →
  id a ≠ "root" → id b ≠ "root" →
  before a b l → before a b (visibleSequence l).
Proof.
  intros Ha Hb Hra Hrb (l1 & l2 & l3 & ->).
  exists (visibleSequence l1), (visibleSequence l2), (visibleSequence l3).
  rewrite visibleSequence_app, visibleSequence_cons_shown by done.
  by rewrite visibleSequence_app, visibleSequence_cons_shown by done.
Qed.

(** Two fresh siblings, merged one after the other. *)
Lemma applyOperation_two s a b p x :
  list_find (λ n, id n = id a) s = None →
  list_find (λ n, id n = id b) s = None →
  id b ≠ id a →
  list_find (λ n, Some (id n) = previousId a) s = Some (p, x) →
  previousId b = previousId a →
  Sibling.applyOperation (Sibling.applyOperation s a) b
  = take (S p) s ++ place b (place a (drop (S p) s)).
Proof.
  intros Ha Hb Hne Hprev Heq.
  rewrite (applyOperation_fresh _ _ _ _ Ha Hprev).
  assert (length (take (S p) s) = S p) as Hlen.
  { apply list_find_Some in Hprev as (Hp%lookup_lt_Some & _).
    rewrite length_take. lia. }
  rewrite (applyOperation_fresh _ b p x).
  - by rewrite take_app_length', drop_app_length'.
  - apply list_find_None, Forall_forall.
    intros n [Hn|[->|Hn]%place_elem]%elem_of_app; [|done|].
    + apply list_find_None in Hb. rewrite Forall_forall in Hb.
      apply Hb. by apply (subseteq_take (S p) s).
    + apply list_find_None in Hb. rewrite Forall_forall in Hb.
      apply Hb. by apply (subseteq_drop (S p) s).
  - rewrite Heq. by apply list_find_front.
Qed.

(** Two fresh siblings, merged one after the other by src/index.tsx: each
    one is put directly behind the predecessor. *)
Lemma Index_two s a b p x :
  list_find (λ n, id n = id a) s = None →
  list_find (λ n, id n = id b) s = None →
  id b ≠ id a →
  list_find (λ n, Some (id n) = previousId a) s = Some (p, x) →
  previousId b = previousId a →
  Index.applyOperation (Index.applyOperation s a) b
  = take (S p) s ++ b :: a :: drop (S p) s.
Proof.
  intros Ha Hb Hne Hprev Heq.
  rewrite (Index_fresh _ _ _ _ Hprev Ha).
  assert (length (take (S p) s) = S p) as Hlen.
  { apply list_find_Some in Hprev as (Hp%lookup_lt_Some & _).
    rewrite length_take. lia. }
  rewrite (Index_fresh _ b p x).
  - by rewrite take_app_length', drop_app_length'.
  - rewrite Heq. by apply list_find_front.
  - apply list_find_None, Forall_forall.
    intros n [Hn|[->|Hn]%elem_of_cons]%elem_of_app; [|done|].
    + apply list_find_None in Hb. rewrite Forall_forall in Hb.
      apply Hb. by apply (subseteq_take (S p) s).
    + apply list_find_None in Hb. rewrite Forall_forall in Hb.
      apply Hb. by apply (subseteq_drop (S p) s).
Qed.

End Siblings.

(** C2. Where a fresh insert lands (its id is new to the replica, its
    predecessor is found at index [p]), as each merge function has it.

    In the second component it lands at index [p + 1 + k], where [k] counts
    exactly the unbroken run of nodes behind the predecessor that share the
    incoming [previousId] and carry a strictly smaller timestamp.  Hence two
    inserts behind the same predecessor with timestamps T1 < T2 give the
    same list in either delivery order, with T1's node before T2's node,
    in the list and in the visible sequence.

    In src/index.tsx it lands at index [p + 1] and the index is not moved
    on: of two inserts behind the same predecessor the one delivered last
    stands directly behind the predecessor and the other one directly
    behind it, whatever their timestamps. *)
Theorem sibling_tie_break (s : list RGANode) (incoming : RGANode)
    (p : nat) (x : RGANode) :
  id incoming ∉ ids s →
  list_find (λ n, Some (id n) = previousId incoming) s = Some (p, x) →
  (∃ k,
     Sibling.applyOperation s incoming
     = take (S p + k) s ++ incoming :: drop (S p + k) s
     ∧ (∀ j, j < k →
          ∃ n, s !! (S p + j) = Some n
               ∧ previousId n = previousId incoming
               ∧ (timestamp n < timestamp incoming)%Z)
     ∧ (∀ n, s !! (S p + k) = Some n →
          ¬ (previousId n = previousId incoming
             ∧ (timestamp n < timestamp incoming)%Z)))
  ∧ (∀ later,
      id later ∉ ids s → id later ≠ id incoming →
      previousId later = previousId incoming →
      (timestamp incoming < timestamp later)%Z →
      Sibling.applyOperation (Sibling.applyOperation s incoming) later
      = Sibling.applyOperation (Sibling.applyOperation s later) incoming
      ∧ before incoming later
          (Sibling.applyOperation (Sibling.applyOperation s incoming) later)
      ∧ (removed incoming = false → removed later = false →
         id incoming ≠ "root" → id later ≠ "root" →
         before incoming later
           (visibleSequence
              (Sibling.applyOperation (Sibling.applyOperation s incoming) later))
         ∧ before incoming later
             (visibleSequence
                (Sibling.applyOperation (Sibling.applyOperation s later) incoming))))
  ∧ Index.applyOperation s incoming
    = take (S p) s ++ incoming :: drop (S p) s
  ∧ (∀ later,
      id later ∉ ids s → id later ≠ id incoming →
      previousId later = previousId incoming →
      Index.applyOperation (Index.applyOperation s incoming) later
      = take (S p) s ++ later :: incoming :: drop (S p) s
      ∧ Index.applyOperation (Index.applyOperation s later) incoming
        = take (S p) s ++ incoming :: later :: drop (S p) s
      ∧ (removed incoming = false → removed later = false →
         id incoming ≠ "root" → id later ≠ "root" →
         before later incoming
           (visibleSequence
              (Index.applyOperation (Index.applyOperation s incoming) later))
         ∧ before incoming later
             (visibleSequence
                (Index.applyOperation (Index.applyOperation s later) incoming)))).
Proof.
  intros Hid%not_elem_of_ids_find Hprev. split_and!.
  - exists (earlierRun incoming (drop (S p) s)). split_and!.
    + rewrite (applyOperation_fresh _ _ _ _ Hid Hprev).
      by rewrite place_run, drop_drop, <-take_take_drop, <-app_assoc.
    + intros j Hj. rewrite <-lookup_drop. by apply earlierRun_inside.
    + intros n. rewrite <-lookup_drop. apply earlierRun_stops.
  - intros later Hlater%not_elem_of_ids_find Hne Heq Hlt.
    assert (Sibling.applyOperation (Sibling.applyOperation s incoming) later
            = Sibling.applyOperation (Sibling.applyOperation s later) incoming)
      as Hcomm.
    { rewrite (applyOperation_two s incoming later p x) by done.
      rewrite (applyOperation_two s later incoming p x);
        [|done|done|congruence|by rewrite Heq|done].
      by rewrite place_comm. }
    assert (before incoming later
              (Sibling.applyOperation (Sibling.applyOperation s incoming) later))
      as Hbefore.
    { rewrite (applyOperation_two s incoming later p x) by done.
      by apply before_app_l, place_place_before. }
    split_and!; [done..|].
    intros Hra Hrl Hia Hil. rewrite <-Hcomm.
    split; by apply before_visibleSequence.
  - by apply (Index_fresh _ _ p x).
  - intros later Hlater%not_elem_of_ids_find Hne Heq.
    assert (Index.applyOperation (Index.applyOperation s incoming) later
            = take (S p) s ++ later :: incoming :: drop (S p) s) as Hfirst
      by (by apply (Index_two s incoming later p x)).
    assert (Index.applyOperation (Index.applyOperation s later) incoming
            = take (S p) s ++ incoming :: later :: drop (S p) s) as Hsecond.
    { apply (Index_two s later incoming p x);
        [done|done|congruence|by rewrite Heq|done]. }
    split_and!; [done..|].
    intros Hra Hrl Hia Hil. rewrite Hfirst, Hsecond.
    split; apply before_visibleSequence; try done.
    + by exists (take (S p) s), [], (drop (S p) s).
    + by exists (take (S p) s), [], (drop (S p) s).
Qed.

(** The tie-break as the specification words it does not hold of
    src/index.tsx: two characters typed behind the same predecessor,
    delivered in the order of their timestamps, end up with the later one
    first, where the second component puts the earlier one first. *)
Lemma Index_orders_siblings_by_arrival :
  (id Examples.atStart ∉ ids Examples.oneChar)
  ∧ (id Examples.atStartLater ∉ ids Examples.oneChar)
  ∧ previousId Examples.atStartLater = previousId Examples.atStart
  ∧ (timestamp Examples.atStart < timestamp Examples.atStartLater)%Z
  ∧ visibleSequence
      (Index.applyOperation
         (Index.applyOperation Examples.oneChar Examples.atStart)
         Examples.atStartLater)
    = [Examples.atStartLater; Examples.atStart;
       Examples.node "c" "c" 10 "root" false user1]
  ∧ visibleSequence
      (Sibling.applyOperation
         (Sibling.applyOperation Examples.oneChar Examples.atStart)
         Examples.atStartLater)
    = [Examples.node "c" "c" 10 "root" false user1;
       Examples.atStart; Examples.atStartLater].
Proof.
  split_and!;
    try (apply (bool_decide_unpack _); vm_compute; exact I);
    reflexivity.
Qed.

Lemma sibling_tie_break_witness :
  (id Examples.atStart ∉ ids Examples.oneChar)
  ∧ list_find (λ n, Some (id n) = previousId Examples.atStart) Examples.oneChar
    = Some (0, rootNode)
  ∧ (∃ k, Sibling.applyOperation Examples.oneChar Examples.atStart
          = take (1 + k) Examples.oneChar
            ++ Examples.atStart :: drop (1 + k) Examples.oneChar)
  ∧ before Examples.atStart Examples.atStartLater
      (visibleSequence
         (Sibling.applyOperation
            (Sibling.applyOperation Examples.oneChar Examples.atStartLater)
            Examples.atStart))
  ∧ Index.applyOperation
      (Index.applyOperation Examples.oneChar Examples.atStart)
      Examples.atStartLater
    = [rootNode; Examples.atStartLater; Examples.atStart;
       Examples.node "c" "c" 10 "root" false user1].
Proof.
  assert (id Examples.atStart ∉ ids Examples.oneChar) as Hid
    by (apply (bool_decide_unpack _); vm_compute; exact I).
  assert (id Examples.atStartLater ∉ ids Examples.oneChar) as Hid'
    by (apply (bool_decide_unpack _); vm_compute; exact I).
  assert (list_find (λ n, Some (id n) = previousId Examples.atStart)
            Examples.oneChar = Some (0, rootNode)) as Hprev
    by (vm_compute; reflexivity).
  destruct (sibling_tie_break Examples.oneChar Examples.atStart 0 rootNode
              Hid Hprev) as ((k & Hk & _) & Hlater & _ & Hindex).
  split_and!; [exact Hid|exact Hprev|by exists k| |].
  - destruct (Hlater Examples.atStartLater) as (_ & _ & Hshown).
    + exact Hid'.
    + discriminate.
    + reflexivity.
    + reflexivity.
    + apply Hshown; [reflexivity|reflexivity|discriminate|discriminate].
  - destruct (Hindex Examples.atStartLater) as (Hfirst & _).
    + exact Hid'.
    + discriminate.
    + reflexivity.
    + exact Hfirst.
Defined.

Lemma applyOperation_last_write_wins_witness :
  id Examples.tombC ∈ ids Examples.oneChar
  ∧ ∃ i existing,
      Examples.oneChar !! i = Some existing
      ∧ id existing = id Examples.tombC
      ∧ Sibling.applyOperation Examples.oneChar Examples.tombC
        = <[i := Examples.tombC]> Examples.oneChar
      ∧ Index.applyOperation Examples.oneChar Examples.tombC
        = <[i := Examples.tombC]> Examples.oneChar.
Proof.
  assert (id Examples.tombC ∈ ids Examples.oneChar) as Hid
    by (apply (bool_decide_unpack _); vm_compute; exact I).
  split; [exact Hid|].
  destruct (applyOperation_last_write_wins Examples.oneChar Examples.tombC Hid)
    as (i & e & Hi & He & _ & _ & Hnewer).
  exists i, e.
  assert (timestamp Examples.tombC > timestamp e)%Z as Hlt.
  { destruct i as [|[|i]]; simpl in Hi.
    - injection Hi as <-. discriminate He.
    - injection Hi as <-. reflexivity.
    - discriminate Hi. }
  destruct (Hnewer Hlt) as (Hs & _ & _ & _ & _ & Hindex & _).
  split_and!; [exact Hi|exact He|exact Hs|].
  apply Hindex. exists rootNode. split; [|reflexivity].
  apply (bool_decide_unpack _). vm_compute. exact I.
Defined.

(** ** The four merge functions compared *)

Lemma SiblingCopy_same (nodes : list RGANode) (newNode : RGANode) :
  SiblingCopy.applyOperation nodes newNode = Sibling.applyOperation nodes newNode.
Proof. reflexivity. Qed.

Lemma Legacy_same (nodes : list RGANode) (newNode : RGANode) :
  Legacy.applyOperation nodes newNode = Index.applyOperation nodes newNode.
Proof.
  unfold Legacy.applyOperation, Index.applyOperation, JS.find.
  destruct (list_find (λ n, Some (id n) = previousId newNode) nodes)
    as [[p x]|] eqn:Hprev; simpl.
  - rewrite (findIndex_Some _ _ _ _ Hprev), (indexOf_find _ _ _ _ Hprev).
    destruct (Z.eqb_spec (Z.of_nat p + 1) 0); [lia|done].
  - by rewrite (findIndex_None _ _ Hprev).
Qed.

(** Where the variant of src/index.tsx and the one with the sibling
    tie-break return the same list. *)
Lemma Index_agrees (nodes : list RGANode) (newNode : RGANode) :
  (id newNode ∈ ids nodes →
   ∃ m, m ∈ nodes ∧ Some (id m) = previousId newNode) →
  (id newNode ∉ ids nodes →
   ∀ p x y,
     list_find (λ n, Some (id n) = previousId newNode) nodes = Some (p, x) →
     nodes !! S p = Some y →
     ¬ (previousId y = previousId newNode
        ∧ (timestamp y < timestamp newNode)%Z)) →
  Index.applyOperation nodes newNode = Sibling.applyOperation nodes newNode.
Proof.
  intros Hheld Hfresh.
  destruct (list_find (λ n, id n = id newNode) nodes) as [[i e]|] eqn:Hfind.
  - destruct Hheld as (m & Hm & Hprev).
    { pose proof Hfind as (Hi & Hid & _)%list_find_Some.
      unfold ids. apply list_elem_of_fmap. exists e. split; [done|].
      by eapply list_elem_of_lookup_2. }
    destruct (list_find_elem_of (λ n, Some (id n) = previousId newNode)
                nodes m Hm Hprev) as [[p x] Hp].
    by eapply Index_last_write_wins.
  - assert (id newNode ∉ ids nodes) as Hnot.
    { intros (k & e & Hk)%elem_of_ids_find. by rewrite Hk in Hfind. }
    destruct (list_find (λ n, Some (id n) = previousId newNode) nodes)
      as [[p x]|] eqn:Hprev.
    + rewrite (Index_fresh _ _ _ _ Hprev Hfind),
              (applyOperation_fresh _ _ _ _ Hfind Hprev).
      f_equal. destruct (drop (S p) nodes) as [|y l] eqn:Hdrop; [done|].
      simpl. destruct (Sibling.earlierSibling newNode y) eqn:E; [|done].
      apply earlierSibling_true in E.
      destruct (Hfresh Hnot p x y eq_refl); [|done].
      by rewrite <-(Nat.add_0_r (S p)), <-lookup_drop, Hdrop.
    + by rewrite (Index_unresolved _ _ Hprev),
                 (applyOperation_unresolved _ _ Hfind Hprev).
Qed.

(** C10, as the code has it. The two copies with the sibling tie-break are
    the same function, and the first component's merge function is the one
    of src/index.tsx; the two pairs agree on an incoming node whenever a
    held id comes with a predecessor that resolves, and a fresh node's
    predecessor is not directly followed by an earlier sibling. *)
Theorem applyOperation_variants (nodes : list RGANode) (newNode : RGANode) :
  SiblingCopy.applyOperation nodes newNode = Sibling.applyOperation nodes newNode
  ∧ Legacy.applyOperation nodes newNode = Index.applyOperation nodes newNode
  ∧ ((id newNode ∈ ids nodes →
      ∃ m, m ∈ nodes ∧ Some (id m) = previousId newNode) →
     (id newNode ∉ ids nodes →
      ∀ p x y,
        list_find (λ n, Some (id n) = previousId newNode) nodes = Some (p, x) →
        nodes !! S p = Some y →
        ¬ (previousId y = previousId newNode
           ∧ (timestamp y < timestamp newNode)%Z)) →
     Index.applyOperation nodes newNode = Sibling.applyOperation nodes newNode).
Proof.
  split_and!;
    [apply SiblingCopy_same|apply Legacy_same|apply Index_agrees].
Qed.

(** C10, as stated, fails: src/index.tsx puts a fresh node directly behind
    its predecessor where the variant with the tie-break moves it past an
    earlier sibling, and it ignores a newer copy of a node whose
    [previousId] does not resolve (here the root) where the other variant
    overwrites. *)
Lemma applyOperation_variants_differ :
  ids (Index.applyOperation Examples.oneChar Examples.atStart)
  = ["root"; "a"; "c"]
  ∧ ids (Sibling.applyOperation Examples.oneChar Examples.atStart)
    = ["root"; "c"; "a"]
  ∧ Index.applyOperation Examples.oneChar Examples.atStart
    ≠ Sibling.applyOperation Examples.oneChar Examples.atStart
  ∧ Index.applyOperation [rootNode] Examples.newerRoot = [rootNode]
  ∧ Sibling.applyOperation [rootNode] Examples.newerRoot = [Examples.newerRoot].
Proof. split_and!; [reflexivity|reflexivity|discriminate|reflexivity..]. Qed.

Lemma applyOperation_variants_witness :
  Index.applyOperation Examples.oneChar Examples.afterC
  = Sibling.applyOperation Examples.oneChar Examples.afterC.
Proof.
  apply (applyOperation_variants Examples.oneChar Examples.afterC).
  - intros Hheld. exfalso. revert Hheld.
    apply (bool_decide_unpack _). vm_compute. exact I.
  - intros _ p x y Hfind Hy.
    assert (p = 1) as -> by (vm_compute in Hfind; congruence).
    discriminate Hy.
Defined.

(** ** Delivery order *)

(** C1 does not hold of the code.  A replica holds the character ["c"];
    one user types ["a"] in front of it while the other types ["b"] behind
    it.  Both predecessors are held, yet the order of delivery decides the
    list and the visible text: ["c"; "b"; "a"] against ["c"; "a"; "b"].
    The same happens in src/index.tsx for two characters typed at the same
    place, and when a tombstone re-stamps the sibling a new character is
    sorted against. *)
Theorem delivery_order_changes_the_list :
  (Some (id rootNode) = previousId Examples.atStart
   ∧ rootNode ∈ Examples.oneChar)
  ∧ (∃ c, c ∈ Examples.oneChar ∧ Some (id c) = previousId Examples.afterC)
  ∧ value <$> visibleSequence
      (Sibling.applyOperation
         (Sibling.applyOperation Examples.oneChar Examples.atStart)
         Examples.afterC) = ["c"; "b"; "a"]
  ∧ value <$> visibleSequence
      (Sibling.applyOperation
         (Sibling.applyOperation Examples.oneChar Examples.afterC)
         Examples.atStart) = ["c"; "a"; "b"]
  ∧ Sibling.applyOperation
      (Sibling.applyOperation Examples.oneChar Examples.atStart) Examples.afterC
    ≠ Sibling.applyOperation
        (Sibling.applyOperation Examples.oneChar Examples.afterC) Examples.atStart
  ∧ Index.applyOperation
      (Index.applyOperation Examples.oneChar Examples.atStart)
      Examples.atStartLater
    ≠ Index.applyOperation
        (Index.applyOperation Examples.oneChar Examples.atStartLater)
        Examples.atStart
  ∧ Sibling.applyOperation
      (Sibling.applyOperation Examples.oneChar Examples.tombC) Examples.atStart
    ≠ Sibling.applyOperation
        (Sibling.applyOperation Examples.oneChar Examples.atStart) Examples.tombC.
Proof.
  split_and!.
  - reflexivity.
  - apply elem_of_cons. by left.
  - exists (Examples.node "c" "c" 10 "root" false user1). split; [|reflexivity].
    apply elem_of_cons. right. apply elem_of_cons. by left.
  - reflexivity.
  - reflexivity.
  - discriminate.
  - discriminate.
  - discriminate.
Qed.

(** ** The preset "Concurrent Delete and Insert", synchronised *)

(** C5, as the code has it.  Once each replica has merged every node of
    the other, the two lists are equal, the five characters of "hello" are
    tombstones on both sides, no timer is pending, and the visible sequence
    of either side is the single node ["X"]. *)
Theorem deleteInsert_keeps_X :
  user1Nodes Examples.deleteInsert_synced
  = applyAll Sibling.applyOperation
      Examples.deleteInsert_user1Nodes Examples.deleteInsert_user2Nodes
  ∧ user2Nodes Examples.deleteInsert_synced
    = applyAll Sibling.applyOperation
        Examples.deleteInsert_user2Nodes Examples.deleteInsert_user1Nodes
  ∧ timers Examples.deleteInsert_synced = []
  ∧ user1Nodes Examples.deleteInsert_synced
    = user2Nodes Examples.deleteInsert_synced
  ∧ ids (user1Nodes Examples.deleteInsert_synced)
    = ["root"; "h1"; "e1"; "l1"; "x1"; "l2"; "o1"]
  ∧ ids (filter (λ n, removed n = true)
           (user1Nodes Examples.deleteInsert_synced))
    = ["h1"; "e1"; "l1"; "l2"; "o1"]
  ∧ visibleSequence (user1Nodes Examples.deleteInsert_synced)
    = [Examples.node "x1" "X" 1005 "l1" false user2]
  ∧ visibleSequence (user2Nodes Examples.deleteInsert_synced)
    = [Examples.node "x1" "X" 1005 "l1" false user2].
Proof. split_and!; vm_compute; reflexivity. Qed.

(** C5, as stated, fails: neither side ends with an empty visible
    sequence. *)
Lemma deleteInsert_not_empty :
  visibleSequence (user1Nodes Examples.deleteInsert_synced) ≠ []
  ∧ visibleSequence (user2Nodes Examples.deleteInsert_synced) ≠ []
  ∧ value <$> visibleSequence (user1Nodes Examples.deleteInsert_synced)
    = ["X"]
  ∧ value <$> visibleSequence (user2Nodes Examples.deleteInsert_synced)
    = ["X"].
Proof. split_and!; vm_compute; first [reflexivity|discriminate]. Qed.

(** ** Causal positioning *)

Section Positioning.
Implicit Types (nodes : list RGANode).

(** On a rooted replica the nodes that are not tombstones are the root
    followed by the visible sequence. *)
Lemma visibleNodes_rooted nodes r rest :
  nodes = r :: rest → id r = "root" → removed r = false →
  Forall (λ n, id n ≠ "root") rest →
  visibleNodes nodes = r :: visibleSequence nodes.
Proof.
  intros -> Hid Hshown Hrest. unfold visibleSequence, visibleNodes.
  rewrite filter_cons, decide_True by done.
  rewrite filter_cons, decide_False by (by intros ?).
  f_equal. induction Hrest as [|n rest Hn Hrest IH]; [done|].
  rewrite filter_cons. destruct (decide (removed n = false)); [|done].
  by rewrite filter_cons, decide_True, <-IH by done.
Qed.

Lemma findInsertPosition_same (position : Z) nodes :
  Sibling.findInsertPosition position nodes
  = Index.findInsertPosition position nodes.
Proof. reflexivity. Qed.

Lemma findInsertPosition_start nodes :
  Index.findInsertPosition 0 nodes = "root".
Proof. reflexivity. Qed.

Lemma findInsertPosition_nth nodes (k : nat) n :
  rooted nodes →
  visibleSequence nodes !! k = Some n → id n ≠ "" →
  Index.findInsertPosition (Z.of_nat (S k)) nodes = id n.
Proof.
  intros (r & rest & Hnodes & Hid & Hshown & Hrest) Hk Hne.
  unfold Index.findInsertPosition.
  destruct (Z.eqb_spec (Z.of_nat (S k)) 0); [lia|].
  rewrite get_of_nat, (visibleNodes_rooted _ _ _ Hnodes Hid Hshown Hrest).
  simpl. rewrite Hk. by rewrite bool_decide_false.
Qed.

Lemma findInsertPosition_outside nodes (position : Z) :
  rooted nodes →
  (position < 0 ∨ Z.of_nat (length (visibleSequence nodes)) < position)%Z →
  Index.findInsertPosition position nodes = "root".
Proof.
  intros (r & rest & Hnodes & Hid & Hshown & Hrest) Hout.
  unfold Index.findInsertPosition.
  destruct (Z.eqb_spec position 0); [done|].
  rewrite (visibleNodes_rooted _ _ _ Hnodes Hid Hshown Hrest).
  unfold JS.get. destruct (Z.ltb_spec position 0); [done|].
  rewrite (proj2 (lookup_ge_None _ _)); [done|]. simpl. lia.
Qed.

(** The text as the specification counts it is what the component's two
    filters leave. *)
Lemma characters_visibleSequence nodes :
  characters nodes = visibleSequence nodes.
Proof.
  unfold visibleSequence, visibleNodes.
  induction nodes as [|n rest IH]; simpl; [done|].
  rewrite filter_cons. destruct (removed n) eqn:Hremoved.
  - by rewrite decide_False by done.
  - rewrite decide_True by done. rewrite filter_cons.
    destruct (String.eqb_spec (id n) "root") as [Hroot|Hroot].
    + by rewrite decide_False by (by intros ?).
    + by rewrite decide_True, IH by done.
Qed.

(** The first component reads [vnodes[position - 1]]: one node further
    left than the later components. *)
Lemma Legacy_findInsertPosition_next nodes (p : Z) :
  (0 < p)%Z →
  Legacy.findInsertPosition (p + 1) nodes = Index.findInsertPosition p nodes.
Proof.
  intros Hp. unfold Legacy.findInsertPosition, Index.findInsertPosition.
  destruct (Z.gtb_spec (p + 1) 0); [|lia].
  destruct (Z.eqb_spec p 0); [lia|].
  by replace (p + 1 - 1)%Z with p by lia.
Qed.

Lemma Legacy_findInsertPosition_low nodes (position : Z) :
  rooted nodes → (position ≤ 1)%Z →
  Legacy.findInsertPosition position nodes = "root".
Proof.
  intros (r & rest & -> & Hr & Hshown & _) Hlow.
  unfold Legacy.findInsertPosition.
  destruct (Z.gtb_spec position 0); [|done].
  replace position with 1%Z by lia.
  unfold visibleNodes. rewrite filter_cons, decide_True by done.
  simpl. rewrite Hr. by case_bool_decide.
Qed.

Lemma findInsertPosition_unnamed nodes (k : nat) n :
  rooted nodes →
  visibleSequence nodes !! k = Some n → id n = "" →
  Index.findInsertPosition (Z.of_nat (S k)) nodes = "root".
Proof.
  intros (r & rest & Hnodes & Hid & Hshown & Hrest) Hk Hne.
  unfold Index.findInsertPosition.
  destruct (Z.eqb_spec (Z.of_nat (S k)) 0); [lia|].
  rewrite get_of_nat, (visibleNodes_rooted _ _ _ Hnodes Hid Hshown Hrest).
  simpl. rewrite Hk. by rewrite bool_decide_true.
Qed.

End Positioning.

(** C8. What [findInsertPosition] answers on a replica with its root in
    place (the root is the first node, it is not a tombstone and no other
    node carries its id), the text being the nodes that are neither
    tombstones nor the root.

    In src/index.tsx and in the second component: the root id for index 0,
    whenever the text is empty, and for an index that is negative or
    exceeds the length of the text; for an index [i] from 1 to the length
    of the text, the id of the [i]-th node of the text counted from the
    start, or the root id should that id be the empty string.

    In the first component: the root id for every index up to 1, and for
    an index [i >= 2] what the later components answer at [i - 1], the id
    of the [(i-1)]-th node of the text. *)
Theorem findInsertPosition_anchor (nodes : list RGANode) (i : Z) :
  rooted nodes →
  (i = 0%Z → Index.findInsertPosition i nodes = "root")
  ∧ (characters nodes = [] → Index.findInsertPosition i nodes = "root")
  ∧ (∀ (k : nat) n,
       i = Z.of_nat (S k) → characters nodes !! k = Some n →
       (id n ≠ "" → Index.findInsertPosition i nodes = id n)
       ∧ (id n = "" → Index.findInsertPosition i nodes = "root"))
  ∧ ((i < 0 ∨ Z.of_nat (length (characters nodes)) < i)%Z →
       Index.findInsertPosition i nodes = "root")
  ∧ Sibling.findInsertPosition i nodes = Index.findInsertPosition i nodes
  ∧ ((i ≤ 1)%Z → Legacy.findInsertPosition i nodes = "root")
  ∧ (∀ (k : nat) n,
       i = Z.of_nat (S (S k)) → characters nodes !! k = Some n →
       (id n ≠ "" → Legacy.findInsertPosition i nodes = id n)
       ∧ (id n = "" → Legacy.findInsertPosition i nodes = "root"))
  ∧ ((Z.of_nat (length (characters nodes)) + 1 < i)%Z →
       Legacy.findInsertPosition i nodes = "root").
Proof.
  intros Hrooted. rewrite characters_visibleSequence. split_and!.
  - intros ->. apply findInsertPosition_start.
  - intros Hempty. destruct (Z.eq_dec i 0%Z) as [->|Hne]; [done|].
    apply findInsertPosition_outside; [done|]. rewrite Hempty. simpl. lia.
  - intros k n -> Hk. split; intros Hid.
    + by apply findInsertPosition_nth.
    + by apply findInsertPosition_unnamed with n.
  - by apply findInsertPosition_outside.
  - apply findInsertPosition_same.
  - by apply Legacy_findInsertPosition_low.
  - intros k n -> Hk.
    replace (Z.of_nat (S (S k))) with (Z.of_nat (S k) + 1)%Z by lia.
    rewrite Legacy_findInsertPosition_next by lia. split; intros Hid.
    + by apply findInsertPosition_nth.
    + by apply findInsertPosition_unnamed with n.
  - intros Hout. replace i with (i - 1 + 1)%Z by lia.
    rewrite Legacy_findInsertPosition_next by lia.
    apply findInsertPosition_outside; [done|]. lia.
Qed.

(** The specification's rule does not hold of every node list, nor of
    every copy of the function.
    Behind the first character of a one-character text the first component
    answers the root, not that character; and on a list that has no root
    in front, or whose root is a tombstone, src/index.tsx answers the root
    where the first node of the text is a character. *)
Lemma findInsertPosition_not_ith_visible :
  characters Examples.oneChar = [Examples.node "c" "c" 10 "root" false user1]
  ∧ Legacy.findInsertPosition 1 Examples.oneChar = "root"
  ∧ characters [Examples.atStart] = [Examples.atStart]
  ∧ Index.findInsertPosition 1 [Examples.atStart] = "root"
  ∧ characters [Examples.tombstonedRoot; Examples.atStart] = [Examples.atStart]
  ∧ Index.findInsertPosition 1 [Examples.tombstonedRoot; Examples.atStart]
    = "root".
Proof. split_and!; reflexivity. Qed.

Lemma findInsertPosition_anchor_witness :
  rooted Examples.deleteRange_user1Nodes
  ∧ characters Examples.deleteRange_user1Nodes
    = [ Examples.node "a1" "a" 1000 "root" false user1;
        Examples.node "c1" "c" 1002 "b1" false user1;
        Examples.node "e1" "e" 1004 "d1" false user1 ]
  ∧ Index.findInsertPosition 0 Examples.deleteRange_user1Nodes = "root"
  ∧ Index.findInsertPosition 2 Examples.deleteRange_user1Nodes = "c1"
  ∧ Index.findInsertPosition 3 Examples.deleteRange_user1Nodes = "e1"
  ∧ Index.findInsertPosition 4 Examples.deleteRange_user1Nodes = "root"
  ∧ Legacy.findInsertPosition 1 Examples.deleteRange_user1Nodes = "root"
  ∧ Legacy.findInsertPosition 3 Examples.deleteRange_user1Nodes = "c1".
Proof.
  assert (rooted Examples.deleteRange_user1Nodes) as Hrooted.
  { eexists _, _. split_and!; [reflexivity..|].
    apply (bool_decide_unpack _). vm_compute. exact I. }
  split; [exact Hrooted|]. split; [reflexivity|].
  destruct (findInsertPosition_anchor _ 0 Hrooted) as (H0 & _).
  destruct (findInsertPosition_anchor _ 2 Hrooted) as (_ & _ & H2 & _).
  destruct (findInsertPosition_anchor _ 3 Hrooted)
    as (_ & _ & H3 & _ & _ & _ & L3 & _).
  destruct (findInsertPosition_anchor _ 4 Hrooted) as (_ & _ & _ & H4 & _).
  destruct (findInsertPosition_anchor _ 1 Hrooted)
    as (_ & _ & _ & _ & _ & L1 & _).
  split_and!.
  - by apply H0.
  - apply (H2 1 (Examples.node "c1" "c" 1002 "b1" false user1));
      [reflexivity|reflexivity|discriminate].
  - apply (H3 2 (Examples.node "e1" "e" 1004 "d1" false user1));
      [reflexivity|reflexivity|discriminate].
  - apply H4. right. vm_compute. reflexivity.
  - apply L1. lia.
  - apply (L3 1 (Examples.node "c1" "c" 1002 "b1" false user1));
      [reflexivity|reflexivity|discriminate].
Defined.

(** The first component counts one place further left: at a cursor behind
    the first character its [findInsertPosition] still answers the root,
    where src/index.tsx answers that character. *)
Lemma Legacy_findInsertPosition_off_by_one :
  Legacy.findInsertPosition 1 Examples.oneChar = "root"
  ∧ Index.findInsertPosition 1 Examples.oneChar = "c".
Proof. split; reflexivity. Qed.

(** ** Inserting at an index outside the visible sequence *)

Section InvalidIndex.
Implicit Types (st : Editor) (author : Author).

Lemma list_find_root (q : string) (r : RGANode) (rest : list RGANode) :
  id r = q →
  list_find (λ n, Some (id n) = Some q) (r :: rest) = Some (0, r).
Proof. intros <-. simpl. by rewrite decide_True. Qed.

Lemma invalid_index_outside (position : Z) (nodes : list RGANode) :
  ¬ validIndex position nodes →
  (position < 0 ∨ Z.of_nat (length (visibleSequence nodes)) < position)%Z.
Proof. unfold validIndex. lia. Qed.

Lemma handleInsert_unfold applyOperation findInsertPosition
    (value : string) (position : Z) author (immediateUpdate : bool)
    (randomId : string) (now : Z) st :
  findInsertPosition position (nodesOf author st) = "root" →
  handleInsert applyOperation findInsertPosition value position author
    immediateUpdate randomId now st
  = setCursor author (λ c, (c + 1)%Z)
      (updateNodes applyOperation author
         {| id := randomId; value := value; timestamp := now;
            previousId := Some "root"; removed := false; author := author |}
         immediateUpdate st).
Proof. unfold handleInsert. by intros ->. Qed.

End InvalidIndex.

(** C9, as the code has it.  For an index that addresses no place of the
    visible sequence, [handleInsert] still builds a node; its [previousId]
    is the root id.  The node is merged into the author's list at once
    (directly behind the root in src/index.tsx, behind the root's earlier
    children with the sibling tie-break), and, unless the editor is
    offline, it is sent to the peer. *)
Theorem handleInsert_invalid_index (st : Editor) (value : string)
    (position : Z) (author : Author) (immediateUpdate : bool)
    (randomId : string) (now : Z) :
  rooted (nodesOf author st) →
  ¬ validIndex position (nodesOf author st) →
  let newNode :=
    {| id := randomId; value := value; timestamp := now;
       previousId := Some "root"; removed := false; author := author |} in
  Index.handleInsert value position author immediateUpdate randomId now st
  = setCursor author (λ c, (c + 1)%Z)
      (updateNodes Index.applyOperation author newNode immediateUpdate st)
  ∧ Sibling.handleInsert value position author immediateUpdate randomId now st
    = setCursor author (λ c, (c + 1)%Z)
        (updateNodes Sibling.applyOperation author newNode immediateUpdate st)
  ∧ (immediateUpdate = true → randomId ∉ ids (nodesOf author st) →
     ∀ r rest, nodesOf author st = r :: rest →
       nodesOf author
         (Index.handleInsert value position author immediateUpdate
            randomId now st) = r :: newNode :: rest
       ∧ nodesOf author
           (Sibling.handleInsert value position author immediateUpdate
              randomId now st) = r :: place newNode rest)
  ∧ (isOffline st = false →
     timers (Index.handleInsert value position author immediateUpdate
               randomId now st)
     = timers st ++ [mkTimer (peer author) (Apply newNode) (networkDelay st)]
     ∧ timers (Sibling.handleInsert value position author immediateUpdate
                 randomId now st)
       = timers st ++ [mkTimer (peer author) (Apply newNode) (networkDelay st)]).
Proof.
  intros Hrooted Hinvalid newNode.
  pose proof (findInsertPosition_outside _ _ Hrooted
                (invalid_index_outside _ _ Hinvalid)) as Hroot.
  assert (Index.handleInsert value position author immediateUpdate
            randomId now st
          = setCursor author (λ c, (c + 1)%Z)
              (updateNodes Index.applyOperation author newNode
                 immediateUpdate st)) as HI
    by (by apply handleInsert_unfold).
  assert (Sibling.handleInsert value position author immediateUpdate
            randomId now st
          = setCursor author (λ c, (c + 1)%Z)
              (updateNodes Sibling.applyOperation author newNode
                 immediateUpdate st)) as HS
    by (by apply handleInsert_unfold).
  split_and!; [done|done| |].
  - intros -> Hfresh%not_elem_of_ids_find r rest Hnodes.
    destruct Hrooted as (r' & rest' & Hnodes' & Hid & _).
    rewrite Hnodes in Hnodes'. injection Hnodes' as <- <-.
    rewrite HI, HS, !nodesOf_setCursor, !nodesOf_updateNodes.
    rewrite bool_decide_true by done. simpl. rewrite Hnodes.
    rewrite Hnodes in Hfresh.
    split.
    + by rewrite (Index_fresh _ newNode 0 r (list_find_root _ _ _ Hid) Hfresh).
    + by rewrite (applyOperation_fresh _ newNode 0 r Hfresh
                    (list_find_root _ _ _ Hid)).
  - intros Honline.
    rewrite HI, HS, !timers_setCursor, !timers_updateNodes.
    by rewrite Honline.
Qed.

Lemma handleInsert_invalid_index_witness :
  rooted (nodesOf user1 Examples.mounted)
  ∧ ¬ validIndex 1 (nodesOf user1 Examples.mounted)
  ∧ nodesOf user1
      (Index.handleInsert "x" 1 user1 true "n1" 7 Examples.mounted)
    = [rootNode; Examples.node "n1" "x" 7 "root" false user1].
Proof.
  assert (rooted (nodesOf user1 Examples.mounted)) as Hrooted
    by (exists rootNode, []; split_and!; [reflexivity..|constructor]).
  assert (¬ validIndex 1 (nodesOf user1 Examples.mounted)) as Hinvalid
    by (unfold validIndex; simpl; lia).
  split_and!; [exact Hrooted|exact Hinvalid|].
  destruct (handleInsert_invalid_index Examples.mounted "x" 1 user1 true
              "n1" 7 Hrooted Hinvalid) as (_ & _ & Hlocal & _).
  apply (Hlocal eq_refl); [|reflexivity].
  apply (bool_decide_unpack _). vm_compute. exact I.
Defined.

(** C9, as stated, fails: at index 1 of an empty text (where ArrowRight
    takes the cursor) the insert is not refused; the node is built, merged
    behind the root and handed to a timer for the peer. *)
Lemma handleInsert_invalid_index_inserts :
  ¬ validIndex 1 (nodesOf user1 Examples.mounted)
  ∧ user1Nodes (Index.handleInsert "x" 1 user1 true "n1" 7 Examples.mounted)
    = [rootNode; Examples.node "n1" "x" 7 "root" false user1]
  ∧ timers (Index.handleInsert "x" 1 user1 true "n1" 7 Examples.mounted)
    = [mkTimer user2 (Apply (Examples.node "n1" "x" 7 "root" false user1)) 1000]
  ∧ user1Nodes (Sibling.handleInsert "x" 1 user1 true "n1" 7 Examples.mounted)
    = [rootNode; Examples.node "n1" "x" 7 "root" false user1]
  ∧ Index.handleInsert "x" 1 user1 true "n1" 7 Examples.mounted
    ≠ Examples.mounted.
Proof.
  split_and!; [unfold validIndex; simpl; lia|reflexivity..|discriminate].
Qed.

(** ** Further concrete runs *)

Lemma history_is_never_destroyed_witness :
  "c" ∈ ids Examples.oneChar
  ∧ "c" ∈ ids (Sibling.applyOperation Examples.oneChar Examples.tombC)
  ∧ length Examples.oneChar
    ≤ length (Index.applyOperation Examples.oneChar Examples.atStart).
Proof.
  assert ("c" ∈ ids Examples.oneChar) as Hheld
    by (apply (bool_decide_unpack _); vm_compute; exact I).
  destruct (history_is_never_destroyed Examples.oneChar Examples.tombC
              Examples.mounted 0 user1 user1 true 0) as ((Hids & _) & _).
  destruct (history_is_never_destroyed Examples.oneChar Examples.atStart
              Examples.mounted 0 user1 user1 true 0) as (_ & (_ & Hlen) & _).
  split_and!; [exact Hheld|by apply Hids|exact Hlen].
Defined.

(** src/index.tsx has no tie-break: of two characters typed at the same
    place, the one delivered last stands first, whatever the timestamps. *)
Lemma Index_no_tie_break :
  ids (Index.applyOperation
         (Index.applyOperation Examples.oneChar Examples.atStart)
         Examples.atStartLater) = ["root"; "d"; "a"; "c"]
  ∧ ids (Index.applyOperation
           (Index.applyOperation Examples.oneChar Examples.atStartLater)
           Examples.atStart) = ["root"; "a"; "d"; "c"].
Proof. split; reflexivity. Qed.

(** X1. In src/index.tsx a fresh node whose predecessor is found at index
    [p] is put at index [p + 1], whatever follows the predecessor. *)
Theorem Index_inserts_behind_predecessor (s : list RGANode) (incoming : RGANode)
    (p : nat) (x : RGANode) :
  id incoming ∉ ids s →
  list_find (λ n, Some (id n) = previousId incoming) s = Some (p, x) →
  Index.applyOperation s incoming = take (S p) s ++ incoming :: drop (S p) s.
Proof.
  intros Hid%not_elem_of_ids_find Hprev. by apply (Index_fresh _ _ p x).
Qed.

Lemma Index_inserts_behind_predecessor_witness :
  (id Examples.atStart ∉ ids Examples.oneChar)
  ∧ Index.applyOperation Examples.oneChar Examples.atStart
    = [rootNode; Examples.atStart; Examples.node "c" "c" 10 "root" false user1].
Proof.
  assert (id Examples.atStart ∉ ids Examples.oneChar) as Hid
    by (apply (bool_decide_unpack _); vm_compute; exact I).
  split; [exact Hid|].
  apply (Index_inserts_behind_predecessor Examples.oneChar Examples.atStart
           0 rootNode Hid).
  reflexivity.
Defined.

(** * Further properties of the merge functions *)

(** ** Invariants of a replica *)

Section Invariants.
Implicit Types (s rest : list RGANode) (op r : RGANode).

Lemma ids_insert_at s op k :
  ids (take k s ++ op :: drop k s) ≡ₚ id op :: ids s.
Proof.
  unfold ids. rewrite fmap_app, fmap_cons, <-Permutation_middle.
  by rewrite <-fmap_app, take_drop.
Qed.

Lemma shape_NoDup s op (s' : list RGANode) :
  s' = s
  ∨ (∃ j e, s !! j = Some e ∧ id e = id op ∧ s' = <[j := op]> s)
  ∨ (∃ k, (id op ∉ ids s) ∧ s' = take k s ++ op :: drop k s) →
  NoDup (ids s) → NoDup (ids s').
Proof.
  intros [->|[(j & e & Hj & Hid & ->)|(k & Hfresh & ->)]] Hnd; [done| |].
  - by rewrite (ids_overwrite _ _ _ _ Hj Hid).
  - rewrite ids_insert_at. by apply NoDup_cons.
Qed.

Lemma rooted_cons r rest :
  id r = "root" → removed r = false → Forall (λ n, id n ≠ "root") rest →
  rooted (r :: rest).
Proof. intros. by exists r, rest. Qed.

Lemma rooted_find_root r rest op :
  id r = "root" → id op = "root" →
  list_find (λ n, id n = id op) (r :: rest) = Some (0, r).
Proof. intros Hr Hop. simpl. rewrite decide_True; [done|congruence]. Qed.

(** A node that does not carry the root id is never found at the head of
    a rooted list. *)
Lemma rooted_find_tail r rest op i e :
  id r = "root" → id op ≠ "root" →
  list_find (λ n, id n = id op) (r :: rest) = Some (i, e) →
  ∃ j, i = S j ∧ rest !! j = Some e.
Proof.
  intros Hr Hop (Hi & Hid & _)%list_find_Some.
  destruct i as [|j]; simpl in Hi.
  - injection Hi as <-. congruence.
  - by exists j.
Qed.

Lemma place_Forall (P : RGANode → Prop) op rest :
  P op → Forall P rest → Forall P (place op rest).
Proof.
  intros Hop Hrest. apply Forall_forall. intros n [->|Hn]%place_elem; [done|].
  rewrite Forall_forall in Hrest. by apply Hrest.
Qed.

Lemma Sibling_keeps_root s op :
  rooted s →
  (∀ r, s !! 0 = Some r → id op = "root" →
        (timestamp op <= timestamp r)%Z) →
  rooted (Sibling.applyOperation s op).
Proof.
  intros (r & rest & -> & Hr & Hshown & Hrest) Hroot.
  destruct (decide (id op = "root")) as [Hop|Hop].
  - rewrite (applyOperation_existing _ _ _ _ (rooted_find_root r rest op Hr Hop)).
    pose proof (Hroot r eq_refl Hop).
    destruct (Z.geb_spec (timestamp r) (timestamp op)); [|lia].
    by apply rooted_cons.
  - destruct (list_find (λ n, id n = id op) (r :: rest))
      as [[i e]|] eqn:Hfind.
    + rewrite (applyOperation_existing _ _ _ _ Hfind).
      destruct (timestamp e >=? timestamp op)%Z; [by apply rooted_cons|].
      destruct (rooted_find_tail _ _ _ _ _ Hr Hop Hfind) as (j & -> & Hj).
      simpl. apply rooted_cons; [done..|]. by apply Forall_insert.
    + destruct (list_find (λ n, Some (id n) = previousId op) (r :: rest))
        as [[p x]|] eqn:Hprev.
      * rewrite (applyOperation_fresh _ _ _ _ Hfind Hprev). simpl.
        apply rooted_cons; [done..|].
        apply Forall_app. split; [by apply Forall_take|].
        apply place_Forall; [done|by apply Forall_drop].
      * rewrite (applyOperation_unresolved _ _ Hfind Hprev).
        by apply rooted_cons.
Qed.

Lemma Index_keeps_root s op :
  rooted s →
  (∀ r, s !! 0 = Some r → id op = "root" →
        (timestamp op <= timestamp r)%Z) →
  rooted (Index.applyOperation s op).
Proof.
  intros (r & rest & -> & Hr & Hshown & Hrest) Hroot.
  destruct (list_find (λ n, Some (id n) = previousId op) (r :: rest))
    as [[p x]|] eqn:Hprev;
    [|rewrite (Index_unresolved _ _ Hprev); by apply rooted_cons].
  destruct (list_find (λ n, id n = id op) (r :: rest)) as [[i e]|] eqn:Hfind.
  - rewrite (Index_existing _ _ _ _ _ _ Hprev Hfind).
    destruct (Z.geb_spec (timestamp e) (timestamp op)) as [|Hlt];
      [by apply rooted_cons|].
    destruct (decide (id op = "root")) as [Hop|Hop].
    + rewrite (rooted_find_root r rest op Hr Hop) in Hfind.
      injection Hfind as <- <-. pose proof (Hroot r eq_refl Hop). lia.
    + destruct (rooted_find_tail _ _ _ _ _ Hr Hop Hfind) as (j & -> & Hj).
      simpl. apply rooted_cons; [done..|]. apply Forall_insert; [done|].
      done.
  - rewrite (Index_fresh _ _ _ _ Hprev Hfind). simpl.
    assert (id op ≠ "root") as Hop.
    { intros Hop. by rewrite (rooted_find_root r rest op Hr Hop) in Hfind. }
    apply rooted_cons; [done..|].
    apply Forall_app. split; [by apply Forall_take|].
    apply Forall_cons. split; [done|by apply Forall_drop].
Qed.

(** Overwriting a node by a strictly newer version of it lowers no
    timestamp. *)
Lemma overwrite_newer s op i e n :
  s !! i = Some e → id e = id op → (timestamp e < timestamp op)%Z →
  n ∈ s →
  ∃ n', n' ∈ <[i := op]> s ∧ id n' = id n
        ∧ (timestamp n <= timestamp n')%Z.
Proof.
  intros Hi Hid Hlt (j & Hj)%list_elem_of_lookup_1.
  destruct (decide (j = i)) as [->|Hne].
  - assert (n = e) as -> by congruence.
    exists op. split_and!; [|done|lia].
    eapply list_elem_of_lookup_2, list_lookup_insert_eq.
    by eapply lookup_lt_Some.
  - exists n. split_and!; [|done|lia].
    eapply list_elem_of_lookup_2. by rewrite list_lookup_insert_ne.
Qed.

Lemma insert_at_keeps s op k n : n ∈ s → n ∈ take k s ++ op :: drop k s.
Proof.
  intros Hn. rewrite <-(take_drop k s) in Hn.
  apply elem_of_app in Hn as [Hn|Hn]; apply elem_of_app; [by left|right].
  by apply elem_of_cons; right.
Qed.

Lemma Sibling_never_older s op n :
  n ∈ s →
  ∃ n', n' ∈ Sibling.applyOperation s op ∧ id n' = id n
        ∧ (timestamp n <= timestamp n')%Z.
Proof.
  intros Hn.
  destruct (list_find (λ m, id m = id op) s) as [[i e]|] eqn:Hfind.
  - rewrite (applyOperation_existing _ _ _ _ Hfind).
    apply list_find_Some in Hfind as (Hi & Hid & _).
    destruct (Z.geb_spec (timestamp e) (timestamp op)).
    + exists n. split_and!; [done..|lia].
    + by eapply overwrite_newer.
  - destruct (list_find (λ m, Some (id m) = previousId op) s)
      as [[p x]|] eqn:Hprev.
    + rewrite (applyOperation_fresh _ _ _ _ Hfind Hprev), place_run.
      exists n. split_and!; [|done|lia].
      rewrite <-(take_drop (S p) s) in Hn.
      apply elem_of_app in Hn as [Hn|Hn]; apply elem_of_app; [by left|right].
      by apply insert_at_keeps.
    + rewrite (applyOperation_unresolved _ _ Hfind Hprev).
      exists n. split_and!; [done..|lia].
Qed.

Lemma Index_never_older s op n :
  n ∈ s →
  ∃ n', n' ∈ Index.applyOperation s op ∧ id n' = id n
        ∧ (timestamp n <= timestamp n')%Z.
Proof.
  intros Hn.
  destruct (list_find (λ m, Some (id m) = previousId op) s)
    as [[p x]|] eqn:Hprev.
  - destruct (list_find (λ m, id m = id op) s) as [[i e]|] eqn:Hfind.
    + rewrite (Index_existing _ _ _ _ _ _ Hprev Hfind).
      apply list_find_Some in Hfind as (Hi & Hid & _).
      destruct (Z.geb_spec (timestamp e) (timestamp op)).
      * exists n. split_and!; [done..|lia].
      * by eapply overwrite_newer.
    + rewrite (Index_fresh _ _ _ _ Hprev Hfind).
      exists n. split_and!; [|done|lia]. by apply insert_at_keeps.
  - rewrite (Index_unresolved _ _ Hprev).
    exists n. split_and!; [done..|lia].
Qed.

End Invariants.

(** X4. A merge step keeps the ids of a replica pairwise distinct: a node
    is only inserted when no node carries its id, and an overwrite puts a
    node where one of the same id stood. *)
Theorem applyOperation_keeps_ids_unique (s : list RGANode) (op : RGANode) :
  NoDup (ids s) →
  NoDup (ids (Sibling.applyOperation s op))
  ∧ NoDup (ids (Index.applyOperation s op)).
Proof.
  intros Hnd. split.
  - apply (shape_NoDup s op); [apply Sibling_shape|done].
  - apply (shape_NoDup s op); [apply Index_shape|done].
Qed.

Lemma applyOperation_keeps_ids_unique_witness :
  NoDup (ids Examples.oneChar)
  ∧ NoDup (ids (Sibling.applyOperation Examples.oneChar Examples.atStart))
  ∧ NoDup (ids (Index.applyOperation Examples.oneChar Examples.tombC)).
Proof.
  assert (NoDup (ids Examples.oneChar)) as Hnd
    by (apply (bool_decide_unpack _); vm_compute; exact I).
  split; [exact Hnd|]. split.
  - by apply (applyOperation_keeps_ids_unique _ Examples.atStart Hnd).
  - by apply (applyOperation_keeps_ids_unique _ Examples.tombC Hnd).
Defined.

(** X5. A merge step leaves the root in place: on a replica whose root is
    first, visible and the only node with its id, the same holds after
    merging any node, provided a node that carries the root id is not newer
    than the root held (the resent root of a full resynchronisation is
    such a node). *)
Theorem applyOperation_keeps_root (s : list RGANode) (op : RGANode) :
  rooted s →
  (∀ r, s !! 0 = Some r → id op = "root" →
        (timestamp op <= timestamp r)%Z) →
  rooted (Sibling.applyOperation s op) ∧ rooted (Index.applyOperation s op).
Proof.
  intros Hrooted Hroot. split.
  - by apply Sibling_keeps_root.
  - by apply Index_keeps_root.
Qed.

Lemma applyOperation_keeps_root_witness :
  rooted Examples.oneChar
  ∧ rooted (Sibling.applyOperation Examples.oneChar Examples.atStart)
  ∧ rooted (Index.applyOperation Examples.oneChar rootNode).
Proof.
  assert (rooted Examples.oneChar) as Hrooted.
  { eexists _, _. split_and!; [reflexivity..|].
    apply (bool_decide_unpack _). vm_compute. exact I. }
  split; [exact Hrooted|]. split.
  - apply (applyOperation_keeps_root _ Examples.atStart Hrooted).
    intros r _ Hid. discriminate Hid.
  - apply (applyOperation_keeps_root _ rootNode Hrooted).
    intros r Hr _. injection Hr as <-. reflexivity.
Defined.

(** X6. A merge step never puts an older version in a node's place: for
    every node held before, the list after the step holds a node of the
    same id whose timestamp is at least as large. *)
Theorem applyOperation_never_older (s : list RGANode) (op n : RGANode) :
  n ∈ s →
  (∃ n', n' ∈ Sibling.applyOperation s op ∧ id n' = id n
         ∧ (timestamp n <= timestamp n')%Z)
  ∧ (∃ n', n' ∈ Index.applyOperation s op ∧ id n' = id n
           ∧ (timestamp n <= timestamp n')%Z).
Proof.
  intros Hn. split; [by apply Sibling_never_older|by apply Index_never_older].
Qed.

Lemma applyOperation_never_older_witness :
  rootNode ∈ Examples.oneChar
  ∧ ∃ n', n' ∈ Sibling.applyOperation Examples.oneChar Examples.tombC
          ∧ id n' = "root".
Proof.
  assert (rootNode ∈ Examples.oneChar) as Hin
    by (apply elem_of_cons; by left).
  split; [exact Hin|].
  destruct (applyOperation_never_older _ Examples.tombC _ Hin)
    as [(n' & Hn' & Hid & _) _].
  by exists n'.
Defined.

(** ** Replicas that hold the same nodes in different versions *)

Section SameIds.
Implicit Types (s done rest : list RGANode) (a b op : RGANode).

Lemma newer_id a b : id a = id b → id (newer a b) = id a.
Proof. unfold newer. intros Hid. by destruct (_ >=? _)%Z. Qed.

Lemma list_find_middle done a rest op :
  NoDup (ids (done ++ a :: rest)) → id a = id op →
  list_find (λ n, id n = id op) (done ++ a :: rest)
  = Some (length done, a).
Proof.
  intros Hnd Hid. apply list_find_Some. split_and!; [|done|].
  - by rewrite lookup_app_r, Nat.sub_diag by lia.
  - intros j y Hj Hlt Hy. rewrite lookup_app_l in Hj by done.
    unfold ids in Hnd. rewrite fmap_app, fmap_cons in Hnd.
    apply NoDup_app in Hnd as (_ & Hdisj & _).
    apply (Hdisj (id y)).
    + apply list_elem_of_fmap. exists y. split; [done|].
      by eapply list_elem_of_lookup_2.
    + apply elem_of_cons. left. congruence.
Qed.

Lemma Sibling_merges_version done a rest b :
  NoDup (ids (done ++ a :: rest)) → id a = id b →
  Sibling.applyOperation (done ++ a :: rest) b = done ++ newer a b :: rest.
Proof.
  intros Hnd Hid.
  rewrite (applyOperation_existing _ _ _ _ (list_find_middle _ _ _ _ Hnd Hid)).
  unfold newer. destruct (timestamp a >=? timestamp b)%Z; [done|].
  by rewrite insert_app_r_alt, Nat.sub_diag by lia.
Qed.

Lemma Sibling_merges_versions rest2 : ∀ done rest1,
  ids rest1 = ids rest2 → NoDup (ids (done ++ rest1)) →
  foldl Sibling.applyOperation (done ++ rest1) rest2
  = done ++ zip_with newer rest1 rest2.
Proof.
  induction rest2 as [|b rest2 IH]; intros done rest1 Hids Hnd.
  - destruct rest1; [done|discriminate Hids].
  - destruct rest1 as [|a rest1]; [discriminate Hids|].
    unfold ids in Hids. rewrite !fmap_cons in Hids.
    injection Hids as Hid Hids. simpl.
    rewrite (Sibling_merges_version _ _ _ _ Hnd Hid).
    rewrite (cons_middle (newer a b)), app_assoc. rewrite IH; [|done|].
    + by rewrite <-app_assoc.
    + rewrite <-app_assoc. simpl. unfold ids in *.
      rewrite fmap_app, fmap_cons in *. by rewrite (newer_id _ _ Hid).
Qed.

Lemma newer_sym s1 : ∀ s2,
  Forall2 (λ a b, timestamp a = timestamp b → a = b) s1 s2 →
  zip_with newer s1 s2 = zip_with newer s2 s1.
Proof.
  induction s1 as [|a s1 IH]; intros [|b s2] H; try done;
    [inversion H..|].
  apply Forall2_cons in H as [Hab H]. simpl. f_equal; [|by apply IH].
  unfold newer.
  destruct (Z.geb_spec (timestamp a) (timestamp b)),
           (Z.geb_spec (timestamp b) (timestamp a)); try done; try lia.
  apply Hab. lia.
Qed.

(** Pending timers fire one after the other. *)
Lemma flush_app applyOperation (ts1 ts2 : list Timer) (st : Editor) :
  flush applyOperation (ts1 ++ ts2) st
  = flush applyOperation ts2 (flush applyOperation ts1 st).
Proof. revert st. induction ts1 as [|t ts1 IH]; intros st; [done|apply IH]. Qed.

Lemma flush_timers applyOperation (ts : list Timer) (st : Editor) :
  timers (flush applyOperation ts st) = timers st.
Proof.
  revert st. induction ts as [|t ts IH]; intros st; [done|].
  simpl. rewrite IH. by destruct (recipient t).
Qed.

Lemma flush_resend applyOperation (to : Author) (d : Z) (l : list RGANode) :
  ∀ st,
    nodesOf to
      (flush applyOperation ((λ n, mkTimer to (Apply n) d) <$> l) st)
    = foldl applyOperation (nodesOf to st) l
    ∧ nodesOf (peer to)
        (flush applyOperation ((λ n, mkTimer to (Apply n) d) <$> l) st)
      = nodesOf (peer to) st.
Proof.
  induction l as [|n l IH]; intros st; [done|].
  rewrite fmap_cons. cbn [flush recipient callback].
  destruct (IH (setNodes to (runCallback applyOperation (Apply n)) st))
    as [Hto Hpeer].
  rewrite Hto, Hpeer. by destruct to.
Qed.

Lemma resend_timers applyOperation (a : Author) (l : list RGANode) :
  ∀ st, isOffline st = false →
    foldl (λ (e : Editor) n, updateNodes applyOperation a n false e) st l
    = mkEditor (user1Nodes st) (user2Nodes st) (networkDelay st) false
        (cursorUser1 st) (cursorUser2 st)
        (timers st ++ ((λ n, mkTimer (peer a) (Apply n) (networkDelay st))
                         <$> l)).
Proof.
  induction l as [|n l IH]; intros st Honline.
  - simpl. rewrite app_nil_r. destruct st. simpl in *. by subst.
  - simpl. rewrite IH.
    + unfold updateNodes. rewrite Honline. simpl.
      by rewrite <-app_assoc.
    + unfold updateNodes. by rewrite Honline.
Qed.

Lemma going_online applyOperation (st : Editor) :
  isOffline st = false → timers st = [] →
  user1Nodes (flushAll applyOperation (syncEffect applyOperation st))
  = foldl applyOperation (user1Nodes st) (user2Nodes st)
  ∧ user2Nodes (flushAll applyOperation (syncEffect applyOperation st))
    = foldl applyOperation (user2Nodes st) (user1Nodes st)
  ∧ timers (flushAll applyOperation (syncEffect applyOperation st)) = [].
Proof.
  intros Honline Hnone. unfold syncEffect. rewrite Honline. simpl.
  rewrite (resend_timers _ user1 _ st Honline).
  rewrite resend_timers by done. simpl.
  unfold flushAll. simpl. rewrite Hnone. simpl.
  rewrite flush_app, flush_timers, flush_timers. simpl.
  split_and!; [| |done].
  - destruct (flush_resend applyOperation user1 (networkDelay st)
                (user2Nodes st)
                (flush applyOperation
                   ((λ n, mkTimer user2 (Apply n) (networkDelay st))
                      <$> user1Nodes st)
                   (mkEditor (user1Nodes st) (user2Nodes st)
                      (networkDelay st) false (cursorUser1 st)
                      (cursorUser2 st) []))) as [H1 _].
    simpl in H1. rewrite H1.
    destruct (flush_resend applyOperation user2 (networkDelay st)
                (user1Nodes st)
                (mkEditor (user1Nodes st) (user2Nodes st)
                   (networkDelay st) false (cursorUser1 st)
                   (cursorUser2 st) [])) as [_ H2].
    simpl in H2. by rewrite H2.
  - destruct (flush_resend applyOperation user1 (networkDelay st)
                (user2Nodes st)
                (flush applyOperation
                   ((λ n, mkTimer user2 (Apply n) (networkDelay st))
                      <$> user1Nodes st)
                   (mkEditor (user1Nodes st) (user2Nodes st)
                      (networkDelay st) false (cursorUser1 st)
                      (cursorUser2 st) []))) as [_ H1].
    simpl in H1. rewrite H1.
    destruct (flush_resend applyOperation user2 (networkDelay st)
                (user1Nodes st)
                (mkEditor (user1Nodes st) (user2Nodes st)
                   (networkDelay st) false (cursorUser1 st)
                   (cursorUser2 st) [])) as [H2 _].
    simpl in H2. by rewrite H2.
Qed.

End SameIds.

(** X7. In the second component, going online makes each replica merge
    exactly the other replica's nodes, in list order, and leaves no timer
    pending: its effect runs once when [isOffline] changes, so with no
    delivery under way the effect and its timers amount to folding the
    merge function over the peer's list. *)
Theorem going_online_exchanges_lists (st : Editor) :
  isOffline st = false → timers st = [] →
  user1Nodes (flushAll Sibling.applyOperation
                (syncEffect Sibling.applyOperation st))
  = applyAll Sibling.applyOperation (user1Nodes st) (user2Nodes st)
  ∧ user2Nodes (flushAll Sibling.applyOperation
                  (syncEffect Sibling.applyOperation st))
    = applyAll Sibling.applyOperation (user2Nodes st) (user1Nodes st)
  ∧ timers (flushAll Sibling.applyOperation
              (syncEffect Sibling.applyOperation st)) = [].
Proof. intros Honline Hnone. by apply going_online. Qed.

Lemma going_online_exchanges_lists_witness :
  isOffline Examples.mounted = false
  ∧ timers Examples.mounted = []
  ∧ user1Nodes (flushAll Sibling.applyOperation
                  (syncEffect Sibling.applyOperation Examples.mounted))
    = applyAll Sibling.applyOperation [rootNode] [rootNode].
Proof.
  split_and!; [reflexivity..|].
  by destruct (going_online_exchanges_lists Examples.mounted eq_refl eq_refl)
    as (H1 & _).
Defined.

(** X8. Two replicas that hold the same ids in the same order (each id
    once), and whose copies of a node are equal whenever their timestamps
    are, converge when they go online: afterwards both hold, position by
    position, the newer of the two copies. *)
Theorem reconnect_same_nodes_converges (st : Editor) :
  isOffline st = false → timers st = [] →
  ids (user1Nodes st) = ids (user2Nodes st) →
  NoDup (ids (user1Nodes st)) →
  Forall2 (λ a b, timestamp a = timestamp b → a = b)
    (user1Nodes st) (user2Nodes st) →
  user1Nodes (flushAll Sibling.applyOperation
                (syncEffect Sibling.applyOperation st))
  = zip_with newer (user1Nodes st) (user2Nodes st)
  ∧ user2Nodes (flushAll Sibling.applyOperation
                  (syncEffect Sibling.applyOperation st))
    = zip_with newer (user1Nodes st) (user2Nodes st).
Proof.
  intros Honline Hnone Hids Hnd Hsame.
  destruct (going_online Sibling.applyOperation st Honline Hnone)
    as (-> & -> & _).
  split.
  - by apply (Sibling_merges_versions _ []).
  - rewrite (newer_sym _ _ Hsame).
    apply (Sibling_merges_versions _ []); [done|]. simpl. by rewrite <-Hids.
Qed.

Lemma reconnect_same_nodes_converges_witness :
  ids Examples.deleteRange_user1Nodes = ids Examples.deleteRange_user2Nodes
  ∧ value <$> visibleSequence
      (user2Nodes
         (flushAll Sibling.applyOperation
            (syncEffect Sibling.applyOperation
               (mkEditor Examples.deleteRange_user1Nodes
                  Examples.deleteRange_user2Nodes 1000 false 0 0 []))))
    = ["e"].
Proof.
  split; [reflexivity|].
  destruct (reconnect_same_nodes_converges
              (mkEditor Examples.deleteRange_user1Nodes
                 Examples.deleteRange_user2Nodes 1000 false 0 0 []))
    as [_ ->]; [reflexivity|reflexivity|reflexivity| | |reflexivity].
  - apply (bool_decide_unpack _). vm_compute. exact I.
  - apply (bool_decide_unpack _). vm_compute. exact I.
Defined.

(** * Further properties of the edit entry points *)

(** ** Where a typed character goes and which one a deletion takes *)

Section Editing.
Implicit Types (nodes l : list RGANode) (st : Editor) (author : Author).

(** The [k]-th element that passes a filter splits the list around it. *)
Lemma filter_lookup_split (P : RGANode → Prop) `{∀ n, Decision (P n)}
    l (k : nat) x :
  filter P l !! k = Some x →
  ∃ l1 l2, l = l1 ++ x :: l2 ∧ length (filter P l1) = k ∧ P x.
Proof.
  revert k. induction l as [|y l IH]; intros k Hk; [done|].
  rewrite filter_cons in Hk. destruct (decide (P y)) as [Hy|Hy].
  - destruct k as [|k]; simpl in Hk.
    + injection Hk as <-. by exists [], l.
    + destruct (IH k Hk) as (l1 & l2 & -> & Hlen & Hx).
      exists (y :: l1), l2. split_and!; [done| |done].
      by rewrite filter_cons, decide_True, length_cons, Hlen.
  - destruct (IH k Hk) as (l1 & l2 & -> & Hlen & Hx).
    exists (y :: l1), l2. split_and!; [done| |done].
    by rewrite filter_cons, decide_False.
Qed.

Lemma visibleSequence_filter l :
  visibleSequence l
  = filter (λ n, id n ≠ "root" ∧ removed n = false) l.
Proof. unfold visibleSequence, visibleNodes. by rewrite list_filter_filter. Qed.

Lemma visibleSequence_lookup_split l (k : nat) x :
  visibleSequence l !! k = Some x →
  ∃ l1 l2, l = l1 ++ x :: l2 ∧ length (visibleSequence l1) = k
           ∧ id x ≠ "root" ∧ removed x = false.
Proof.
  rewrite visibleSequence_filter. intros Hk.
  destruct (filter_lookup_split _ _ _ _ Hk) as (l1 & l2 & -> & Hlen & Hx).
  exists l1, l2. by rewrite visibleSequence_filter.
Qed.

Lemma visibleSequence_cons_hidden x l :
  id x = "root" ∨ removed x = true →
  visibleSequence (x :: l) = visibleSequence l.
Proof.
  intros Hx. rewrite !visibleSequence_filter, filter_cons.
  rewrite decide_False; [done|].
  intros [? ?]. destruct Hx; congruence.
Qed.

Lemma list_find_middle_prev done x rest (q : string) :
  NoDup (ids (done ++ x :: rest)) → id x = q →
  list_find (λ n, Some (id n) = Some q) (done ++ x :: rest)
  = Some (length done, x).
Proof.
  intros Hnd Hid. apply list_find_Some. split_and!; [|by rewrite Hid|].
  - by rewrite lookup_app_r, Nat.sub_diag by lia.
  - intros j y Hj Hlt [= Hy]. rewrite lookup_app_l in Hj by done.
    unfold ids in Hnd. rewrite fmap_app, fmap_cons in Hnd.
    apply NoDup_app in Hnd as (_ & Hdisj & _).
    apply (Hdisj (id y)).
    + apply list_elem_of_fmap. exists y. split; [done|].
      by eapply list_elem_of_lookup_2.
    + apply elem_of_cons. left. congruence.
Qed.

(** What [findInsertPosition] answers is always the id of a node of the
    list, as soon as the list holds the root id. *)
Lemma findInsertPosition_held (position : Z) nodes :
  "root" ∈ ids nodes → Index.findInsertPosition position nodes ∈ ids nodes.
Proof.
  intros Hroot. unfold Index.findInsertPosition.
  destruct (position =? 0)%Z; [done|].
  destruct (JS.get _ _) as [t|] eqn:Hget; [|done].
  case_bool_decide; [done|].
  apply get_elem_of in Hget. unfold visibleNodes in Hget.
  apply list_elem_of_filter in Hget as [_ Hget].
  unfold ids. apply list_elem_of_fmap. by exists t.
Qed.

Lemma held_find_prev nodes (q : string) :
  q ∈ ids nodes →
  ∃ p x, list_find (λ n, Some (id n) = Some q) nodes = Some (p, x).
Proof.
  unfold ids. intros (n & -> & Hn)%list_elem_of_fmap.
  destruct (list_find_elem_of (λ m, Some (id m) = Some (id n)) nodes n Hn
              eq_refl) as [[p x] Hp].
  by exists p, x.
Qed.

End Editing.

(** X9. A typed character is never lost by its author: whatever the
    cursor index, if the author's list holds the root id and the new id is
    not held yet, [handleInsert] makes the list exactly one node longer
    and the new node is in it. *)
Theorem handleInsert_always_inserts (st : Editor) (value : string)
    (position : Z) (author : Author) (randomId : string) (now : Z) :
  "root" ∈ ids (nodesOf author st) →
  randomId ∉ ids (nodesOf author st) →
  (length (nodesOf author
             (Index.handleInsert value position author true randomId now st))
   = S (length (nodesOf author st))
   ∧ randomId ∈ ids (nodesOf author
             (Index.handleInsert value position author true randomId now st)))
  ∧ (length (nodesOf author
               (Sibling.handleInsert value position author true randomId
                  now st))
     = S (length (nodesOf author st))
     ∧ randomId ∈ ids (nodesOf author
               (Sibling.handleInsert value position author true randomId
                  now st))).
Proof.
  intros Hroot Hfresh%not_elem_of_ids_find.
  destruct (held_find_prev _ _ (findInsertPosition_held position _ Hroot))
    as (p & x & Hprev).
  pose proof Hprev as (Hp%lookup_lt_Some & _)%list_find_Some.
  unfold Index.handleInsert, Sibling.handleInsert, handleInsert.
  rewrite !nodesOf_setCursor, !nodesOf_updateNodes.
  rewrite bool_decide_true by done. simpl.
  change (Sibling.findInsertPosition position (nodesOf author st))
    with (Index.findInsertPosition position (nodesOf author st)).
  set (newNode :=
         mkNode randomId value now
           (Some (Index.findInsertPosition position (nodesOf author st)))
           false author).
  rewrite (Index_fresh _ newNode p x Hprev Hfresh).
  rewrite (applyOperation_fresh _ newNode p x Hfresh Hprev).
  unfold ids. rewrite !fmap_app, !length_app, place_length, !length_cons.
  rewrite length_take, length_drop.
  split_and!; [lia| |lia|].
  - apply elem_of_app. right. rewrite fmap_cons. apply elem_of_cons. by left.
  - apply elem_of_app. right. apply list_elem_of_fmap.
    eexists. split; [|apply place_elem; by left]. done.
Qed.

Lemma handleInsert_always_inserts_witness :
  "root" ∈ ids (nodesOf user1 Examples.mounted)
  ∧ length (nodesOf user1
              (Sibling.handleInsert "x" 7 user1 true "n1" 5 Examples.mounted))
    = 2.
Proof.
  assert ("root" ∈ ids (nodesOf user1 Examples.mounted)) as Hroot
    by (apply elem_of_cons; by left).
  split; [exact Hroot|].
  destruct (handleInsert_always_inserts Examples.mounted "x" 7 user1 "n1" 5
              Hroot) as [_ [Hlen _]]; [|exact Hlen].
  apply (bool_decide_unpack _). vm_compute. exact I.
Defined.

Section Cursor.
Implicit Types (nodes l : list RGANode) (st : Editor) (author : Author).

Lemma get_succ_rooted nodes (k : nat) :
  rooted nodes →
  JS.get (visibleNodes nodes) (Z.of_nat k + 1) = visibleSequence nodes !! k.
Proof.
  intros (r & rest & Hnodes & Hid & Hshown & Hrest).
  rewrite (visibleNodes_rooted _ _ _ Hnodes Hid Hshown Hrest).
  replace (Z.of_nat k + 1)%Z with (Z.of_nat (S k)) by lia.
  by rewrite get_of_nat.
Qed.

Lemma visibleSequence_tombstoned l1 t l2 now :
  visibleSequence (l1 ++ tombstone t now :: l2)
  = visibleSequence l1 ++ visibleSequence l2.
Proof.
  rewrite visibleSequence_app, visibleSequence_cons_hidden; [done|by right].
Qed.

Lemma take_behind {A} (l1 l2 : list A) (x : A) (j : nat) :
  length l1 = j → take (S j) (l1 ++ x :: l2) = l1 ++ [x].
Proof.
  intros <-. rewrite (cons_middle x), app_assoc.
  apply take_app_length'. rewrite length_app. simpl. lia.
Qed.

Lemma drop_behind {A} (l1 l2 : list A) (x : A) (j : nat) :
  length l1 = j → drop (S j) (l1 ++ x :: l2) = l2.
Proof.
  intros <-. rewrite (cons_middle x), app_assoc.
  apply drop_app_length'. rewrite length_app. simpl. lia.
Qed.

Lemma Index_places_behind l1 t l2 newNode :
  NoDup (ids (l1 ++ t :: l2)) → id newNode ∉ ids (l1 ++ t :: l2) →
  previousId newNode = Some (id t) →
  Index.applyOperation (l1 ++ t :: l2) newNode = l1 ++ t :: newNode :: l2.
Proof.
  intros Hnd Hfresh%not_elem_of_ids_find Hprev.
  rewrite (Index_fresh _ newNode (length l1) t); [| |done].
  - rewrite take_behind, drop_behind by done. by rewrite <-app_assoc.
  - rewrite Hprev. by apply list_find_middle_prev.
Qed.

End Cursor.

(** X10. In src/index.tsx a typed character appears where the cursor is:
    on a replica with its root in place, distinct non-empty ids and a new
    id, [handleInsert] at a valid visible index [k] yields the visible
    sequence with the new node at index [k] and everything else in its
    old order. *)
Theorem Index_handleInsert_lands_at_cursor (st : Editor) (value : string)
    (k : nat) (author : Author) (randomId : string) (now : Z) :
  rooted (nodesOf author st) →
  NoDup (ids (nodesOf author st)) →
  Forall (λ n, id n ≠ "") (nodesOf author st) →
  randomId ∉ ids (nodesOf author st) →
  k ≤ length (visibleSequence (nodesOf author st)) →
  visibleSequence
    (nodesOf author
       (Index.handleInsert value (Z.of_nat k) author true randomId now st))
  = take k (visibleSequence (nodesOf author st))
    ++ {| id := randomId; value := value; timestamp := now;
          previousId :=
            Some (Index.findInsertPosition (Z.of_nat k) (nodesOf author st));
          removed := false; author := author |}
    :: drop k (visibleSequence (nodesOf author st)).
Proof.
  intros Hrooted Hnd Hids Hfresh Hk.
  unfold Index.handleInsert, handleInsert.
  rewrite nodesOf_setCursor, nodesOf_updateNodes.
  rewrite bool_decide_true by done. simpl.
  set (newNode :=
         mkNode randomId value now
           (Some (Index.findInsertPosition (Z.of_nat k) (nodesOf author st)))
           false author).
  assert (randomId ≠ "root") as Hnotroot.
  { intros ->. apply Hfresh.
    destruct Hrooted as (r & rest & -> & Hr & _).
    unfold ids. rewrite fmap_cons, Hr. apply elem_of_cons. by left. }
  destruct k as [|j].
  - destruct Hrooted as (r & rest & Hnodes & Hr & Hshown & Hrest).
    rewrite Hnodes in *.
    pose proof (Index_places_behind [] r rest newNode Hnd Hfresh) as Hplace.
    simpl in Hplace. rewrite Hplace by (by rewrite Hr).
    rewrite !(visibleSequence_cons_hidden r) by (by left).
    by rewrite visibleSequence_cons_shown.
  - destruct (lookup_lt_is_Some_2 (visibleSequence (nodesOf author st)) j)
      as [t Ht]; [lia|].
    assert (id t ≠ "") as Hne.
    { rewrite Forall_forall in Hids. apply Hids.
      apply list_elem_of_lookup_2 in Ht.
      unfold visibleSequence, visibleNodes in Ht.
      by apply list_elem_of_filter in Ht as [_ [_ ?]%list_elem_of_filter]. }
    pose proof (findInsertPosition_nth _ _ _ Hrooted Ht Hne) as Hpos.
    destruct (visibleSequence_lookup_split _ _ _ Ht)
      as (l1 & l2 & Hnodes & Hlen & Hidt & Hshown).
    rewrite Hnodes in Hnd, Hfresh. rewrite Hnodes.
    rewrite (Index_places_behind l1 t l2 newNode); [|done..|].
    + rewrite !visibleSequence_app.
      rewrite !(visibleSequence_cons_shown t) by done.
      rewrite (visibleSequence_cons_shown newNode) by done.
      rewrite take_behind, drop_behind by done.
      by rewrite <-!app_assoc.
    + unfold newNode. simpl. by rewrite Hpos.
Qed.

Lemma Index_handleInsert_lands_at_cursor_witness :
  rooted Examples.deleteInsert_user2Nodes
  ∧ value <$> visibleSequence
      (nodesOf user2
         (Index.handleInsert "!" 3 user2 true "n1" 2000
            (mkEditor [rootNode] Examples.deleteInsert_user2Nodes
               1000 false 0 0 [])))
    = ["h"; "e"; "l"; "!"; "X"; "l"; "o"].
Proof.
  assert (rooted Examples.deleteInsert_user2Nodes) as Hrooted.
  { eexists _, _. split_and!; [reflexivity..|].
    apply (bool_decide_unpack _). vm_compute. exact I. }
  split; [exact Hrooted|].
  change 3%Z with (Z.of_nat 3).
  rewrite (Index_handleInsert_lands_at_cursor
             (mkEditor [rootNode] Examples.deleteInsert_user2Nodes
                1000 false 0 0 []) "!" 3 user2 "n1" 2000 Hrooted).
  - reflexivity.
  - apply (bool_decide_unpack _). vm_compute. exact I.
  - apply (bool_decide_unpack _). vm_compute. exact I.
  - apply (bool_decide_unpack _). vm_compute. exact I.
  - apply (bool_decide_unpack _). vm_compute. exact I.
Defined.

(** X11. A deletion takes the character the index names: on a replica
    with its root in place and distinct ids, [handleDelete] at visible
    index [k], with a clock ahead of that character's timestamp, yields
    the visible sequence without its [k]-th node and nothing else changed
    (in src/index.tsx provided the character's predecessor is held). *)
Theorem handleDelete_removes_the_character (st : Editor) (k : nat)
    (author : Author) (now : Z) (t : RGANode) :
  rooted (nodesOf author st) →
  NoDup (ids (nodesOf author st)) →
  visibleSequence (nodesOf author st) !! k = Some t →
  (timestamp t < now)%Z →
  visibleSequence
    (nodesOf author (Sibling.handleDelete (Z.of_nat k) author true now st))
  = delete k (visibleSequence (nodesOf author st))
  ∧ ((∃ m, m ∈ nodesOf author st ∧ Some (id m) = previousId t) →
     visibleSequence
       (nodesOf author (Index.handleDelete (Z.of_nat k) author true now st))
     = delete k (visibleSequence (nodesOf author st))).
Proof.
  intros Hrooted Hnd Ht Hlt.
  pose proof (get_succ_rooted _ k Hrooted) as Hget. rewrite Ht in Hget.
  destruct (visibleSequence_lookup_split _ _ _ Ht)
    as (l1 & l2 & Hnodes & Hlen & Hidt & Hshown).
  assert (delete k (visibleSequence (nodesOf author st))
          = visibleSequence l1 ++ visibleSequence l2) as Hdel.
  { rewrite Hnodes, visibleSequence_app, visibleSequence_cons_shown by done.
    rewrite <-Hlen. apply delete_middle. }
  assert (newer t (tombstone t now) = tombstone t now) as Hnewer.
  { unfold newer. simpl.
    destruct (Z.geb_spec (timestamp t) now); [lia|done]. }
  split.
  - unfold Sibling.handleDelete, handleDeleteResend. rewrite Hget.
    assert (nodesOf author
              (setCursor author (λ c, Z.max 0 (c - 1))
                 (updateNodes Sibling.applyOperation author
                    (tombstone t now) true st))
            = l1 ++ tombstone t now :: l2) as Hlocal.
    { rewrite nodesOf_setCursor, nodesOf_updateNodes.
      rewrite bool_decide_true by done. simpl. rewrite Hnodes.
      rewrite Hnodes in Hnd.
      by rewrite (Sibling_merges_version l1 t l2 (tombstone t now) Hnd),
                 Hnewer. }
    destruct (negb (isOffline st)); rewrite ?nodesOf_setTimeout, Hlocal;
      by rewrite visibleSequence_tombstoned.
  - intros (m & Hm & Hprev).
    unfold Index.handleDelete, handleDelete. rewrite Hget.
    rewrite nodesOf_setCursor, nodesOf_updateNodes.
    rewrite bool_decide_true by done. simpl.
    destruct (list_find_elem_of
                (λ n, Some (id n) = previousId (tombstone t now))
                (nodesOf author st) m Hm Hprev) as [[p x] Hp].
    rewrite Hnodes in *.
    rewrite (Index_existing _ _ _ _ _ _ Hp
               (list_find_middle l1 t l2 (tombstone t now) Hnd eq_refl)).
    destruct (Z.geb_spec (timestamp t) (timestamp (tombstone t now)));
      [simpl in *; lia|].
    rewrite insert_app_r_alt, Nat.sub_diag by lia. simpl.
    by rewrite visibleSequence_tombstoned.
Qed.

Lemma handleDelete_removes_the_character_witness :
  rooted Examples.deleteInsert_user2Nodes
  ∧ value <$> visibleSequence
      (nodesOf user2
         (Sibling.handleDelete 3 user2 true 2000
            (mkEditor [rootNode] Examples.deleteInsert_user2Nodes
               1000 false 0 0 [])))
    = ["h"; "e"; "l"; "l"; "o"].
Proof.
  assert (rooted Examples.deleteInsert_user2Nodes) as Hrooted.
  { eexists _, _. split_and!; [reflexivity..|].
    apply (bool_decide_unpack _). vm_compute. exact I. }
  split; [exact Hrooted|].
  change 3%Z with (Z.of_nat 3).
  destruct (handleDelete_removes_the_character
              (mkEditor [rootNode] Examples.deleteInsert_user2Nodes
                 1000 false 0 0 []) 3 user2 2000
              (Examples.node "x1" "X" 1005 "l1" false user2) Hrooted)
    as [-> _]; [|reflexivity|reflexivity|reflexivity].
  apply (bool_decide_unpack _). vm_compute. exact I.
Defined.

(** ** The cursor stays inside the text *)

Section CursorBounds.
Variable applyOperation : list RGANode → RGANode → list RGANode.
Variable findInsertPosition : Z → list RGANode → string.
Hypothesis shape : ∀ s op,
  applyOperation s op = s
  ∨ (∃ i e, s !! i = Some e ∧ id e = id op
            ∧ applyOperation s op = <[i := op]> s)
  ∨ (∃ k, (id op ∉ ids s)
          ∧ applyOperation s op = take k s ++ op :: drop k s).
Hypothesis grows : ∀ s op p x,
  id op ∉ ids s →
  list_find (λ n, Some (id n) = previousId op) s = Some (p, x) →
  ∃ k, applyOperation s op = take k s ++ op :: drop k s.
Hypothesis held : ∀ position nodes,
  "root" ∈ ids nodes → findInsertPosition position nodes ∈ ids nodes.
Implicit Types (st : Editor) (a author : Author) (s : list RGANode).

Lemma cursorOf_setCursor author f st :
  cursorOf author (setCursor author f st) = f (cursorOf author st).
Proof. by destruct author. Qed.

Lemma cursorOf_setTimeout author t st :
  cursorOf author (setTimeout t st) = cursorOf author st.
Proof. by destruct author. Qed.

Lemma cursorOf_updateNodes author a node (immediateUpdate : bool) st :
  cursorOf author (updateNodes applyOperation a node immediateUpdate st)
  = cursorOf author st.
Proof.
  unfold updateNodes.
  by destruct (negb (isOffline st)), immediateUpdate, a, author.
Qed.

Lemma visible_insert_at s op k :
  removed op = false →
  length (visibleNodes (take k s ++ op :: drop k s))
  = S (length (visibleNodes s)).
Proof.
  intros Hop. unfold visibleNodes.
  rewrite filter_app, filter_cons, decide_True by done.
  rewrite length_app, length_cons.
  rewrite <-(take_drop k s) at 3. rewrite filter_app, length_app. lia.
Qed.

Lemma visible_overwrite s op j e :
  s !! j = Some e →
  length (visibleNodes s) ≤ S (length (visibleNodes (<[j := op]> s))).
Proof.
  intros Hj. unfold visibleNodes.
  rewrite insert_take_drop by (by eapply lookup_lt_Some).
  rewrite <-(take_drop_middle s j e Hj) at 1.
  rewrite !filter_app, !filter_cons, !length_app.
  destruct (decide (removed e = false)), (decide (removed op = false));
    simpl; lia.
Qed.

Lemma visible_after_merge s op :
  length (visibleNodes s) ≤ S (length (visibleNodes (applyOperation s op))).
Proof.
  destruct (shape s op) as [->|[(j & e & Hj & _ & ->)|(k & _ & ->)]]; [lia| |].
  - by eapply visible_overwrite.
  - unfold visibleNodes.
    rewrite filter_app, filter_cons, length_app.
    rewrite <-(take_drop k s) at 1. rewrite filter_app, length_app.
    destruct (decide (removed op = false)); simpl; lia.
Qed.

Lemma deletion_keeps_cursor_in_text
    (del : Z → Author → bool → Z → Editor → Editor) author now st :
  (∀ position, del position author true now st = st
     ∨ ∃ t, JS.get (visibleNodes (nodesOf author st)) (position + 1) = Some t
            ∧ nodesOf author (del position author true now st)
              = applyOperation (nodesOf author st) (tombstone t now)
            ∧ cursorOf author (del position author true now st)
              = Z.max 0 (cursorOf author st - 1)) →
  (0 < cursorOf author st
   ≤ Z.of_nat (length (visibleNodes (nodesOf author st))))%Z →
  (0 ≤ cursorOf author (del (cursorOf author st - 1) author true now st)
   ≤ Z.of_nat
       (length (visibleNodes
                  (nodesOf author
                     (del (cursorOf author st - 1) author true now st)))))%Z.
Proof.
  intros Hdel Hc.
  destruct (Hdel (cursorOf author st - 1)%Z) as [->|(t & Hget & -> & ->)];
    [lia|].
  pose proof (visible_after_merge (nodesOf author st) (tombstone t now)).
  lia.
Qed.

Lemma keyDown_bounds (del : Z → Author → bool → Z → Editor → Editor)
    author key randomId now st :
  (∀ position, del position author true now st = st
     ∨ ∃ t, JS.get (visibleNodes (nodesOf author st)) (position + 1) = Some t
            ∧ nodesOf author (del position author true now st)
              = applyOperation (nodesOf author st) (tombstone t now)
            ∧ cursorOf author (del position author true now st)
              = Z.max 0 (cursorOf author st - 1)) →
  "root" ∈ ids (nodesOf author st) →
  randomId ∉ ids (nodesOf author st) →
  (0 ≤ cursorOf author st
   ≤ Z.of_nat (length (visibleNodes (nodesOf author st))))%Z →
  ∀ st',
    st' = (if bool_decide (key = "Backspace") && (cursorOf author st >? 0)%Z
           then del (cursorOf author st - 1)%Z author true now st
           else if bool_decide (key = "ArrowLeft")
           then setCursor author (λ c, Z.max 0 (c - 1)) st
           else if bool_decide (key = "ArrowRight")
           then setCursor author
                  (λ c, Z.min (Z.of_nat (length (visibleNodes
                                                   (nodesOf author st))))
                          (c + 1)) st
           else if bool_decide (JS.strLength key = 1)
           then handleInsert applyOperation findInsertPosition key
                  (cursorOf author st) author true randomId now st
           else st) →
    (0 ≤ cursorOf author st'
     ≤ Z.of_nat (length (visibleNodes (nodesOf author st'))))%Z.
Proof.
  intros Hdel Hroot Hfresh Hc st' ->.
  destruct (bool_decide (key = "Backspace")); simpl.
  { destruct (Z.gtb_spec (cursorOf author st) 0).
    - apply deletion_keeps_cursor_in_text; [done|lia].
    - repeat case_bool_decide;
        rewrite ?cursorOf_setCursor, ?nodesOf_setCursor; try lia.
      unfold handleInsert.
      rewrite cursorOf_setCursor, cursorOf_updateNodes.
      rewrite nodesOf_setCursor, nodesOf_updateNodes.
      rewrite bool_decide_true by done. simpl.
      destruct (held_find_prev _ _ (held (cursorOf author st) _ Hroot))
        as (p & x & Hprev).
      destruct (grows (nodesOf author st)
                  (mkNode randomId key now
                     (Some (findInsertPosition (cursorOf author st)
                              (nodesOf author st))) false author)
                  p x Hfresh Hprev) as [k ->].
      rewrite visible_insert_at by done. lia. }
  repeat case_bool_decide;
    rewrite ?cursorOf_setCursor, ?nodesOf_setCursor; try lia.
  unfold handleInsert.
  rewrite cursorOf_setCursor, cursorOf_updateNodes.
  rewrite nodesOf_setCursor, nodesOf_updateNodes.
  rewrite bool_decide_true by done. simpl.
  destruct (held_find_prev _ _ (held (cursorOf author st) _ Hroot))
    as (p & x & Hprev).
  destruct (grows (nodesOf author st)
              (mkNode randomId key now
                 (Some (findInsertPosition (cursorOf author st)
                          (nodesOf author st))) false author)
              p x Hfresh Hprev) as [k ->].
  rewrite visible_insert_at by done. lia.
Qed.

Lemma handleDelete_effect position author now st :
  handleDelete applyOperation position author true now st = st
  ∨ ∃ t, JS.get (visibleNodes (nodesOf author st)) (position + 1) = Some t
         ∧ nodesOf author (handleDelete applyOperation position author true
                             now st)
           = applyOperation (nodesOf author st) (tombstone t now)
         ∧ cursorOf author (handleDelete applyOperation position author true
                              now st)
           = Z.max 0 (cursorOf author st - 1).
Proof.
  unfold handleDelete.
  destruct (JS.get _ _) as [t|]; [right|by left].
  exists t. split; [done|].
  rewrite nodesOf_setCursor, nodesOf_updateNodes, cursorOf_setCursor,
    cursorOf_updateNodes.
  by rewrite bool_decide_true.
Qed.

Lemma handleDeleteResend_effect position author now st :
  handleDeleteResend applyOperation position author true now st = st
  ∨ ∃ t, JS.get (visibleNodes (nodesOf author st)) (position + 1) = Some t
         ∧ nodesOf author (handleDeleteResend applyOperation position author
                             true now st)
           = applyOperation (nodesOf author st) (tombstone t now)
         ∧ cursorOf author (handleDeleteResend applyOperation position author
                              true now st)
           = Z.max 0 (cursorOf author st - 1).
Proof.
  unfold handleDeleteResend.
  destruct (JS.get _ _) as [t|]; [right|by left].
  exists t. split; [done|].
  destruct (negb (isOffline st));
    rewrite ?nodesOf_setTimeout, ?cursorOf_setTimeout,
      nodesOf_setCursor, nodesOf_updateNodes, cursorOf_setCursor,
      cursorOf_updateNodes;
    by rewrite bool_decide_true.
Qed.

End CursorBounds.

Lemma Index_grows (s : list RGANode) (op : RGANode) (p : nat) (x : RGANode) :
  id op ∉ ids s →
  list_find (λ n, Some (id n) = previousId op) s = Some (p, x) →
  ∃ k, Index.applyOperation s op = take k s ++ op :: drop k s.
Proof.
  intros Hfresh%not_elem_of_ids_find Hprev. exists (S p).
  by apply (Index_fresh _ _ p x).
Qed.

Lemma Sibling_grows (s : list RGANode) (op : RGANode) (p : nat) (x : RGANode) :
  id op ∉ ids s →
  list_find (λ n, Some (id n) = previousId op) s = Some (p, x) →
  ∃ k, Sibling.applyOperation s op = take k s ++ op :: drop k s.
Proof.
  intros Hfresh%not_elem_of_ids_find Hprev.
  exists (S p + earlierRun op (drop (S p) s)).
  rewrite (applyOperation_fresh _ _ _ _ Hfresh Hprev).
  by rewrite place_run, drop_drop, <-take_take_drop, <-app_assoc.
Qed.

(** X12. No key takes the cursor out of the text: if the author's cursor
    lies between 0 and the number of nodes that are not tombstones, the
    list holds the root id and the id drawn for a new node is not held, the
    cursor lies in the same range of the new list after [handleKeyDown],
    whatever the key. *)
Theorem handleKeyDown_keeps_cursor_in_text (st : Editor) (author : Author)
    (key randomId : string) (now : Z) :
  "root" ∈ ids (nodesOf author st) →
  randomId ∉ ids (nodesOf author st) →
  (0 ≤ cursorOf author st
   ≤ Z.of_nat (length (visibleNodes (nodesOf author st))))%Z →
  (0 ≤ cursorOf author (Index.handleKeyDown author key randomId now st)
   ≤ Z.of_nat
       (length (visibleNodes
                  (nodesOf author
                     (Index.handleKeyDown author key randomId now st)))))%Z
  ∧ (0 ≤ cursorOf author (Sibling.handleKeyDown author key randomId now st)
     ≤ Z.of_nat
         (length (visibleNodes
                    (nodesOf author
                       (Sibling.handleKeyDown author key randomId now st)))))%Z.
Proof.
  intros Hroot Hfresh Hc. split.
  - apply (keyDown_bounds Index.applyOperation Index.findInsertPosition
             Index_shape Index_grows findInsertPosition_held
             (handleDelete Index.applyOperation)
             author key randomId now st); [|done..].
    intros position. apply handleDelete_effect.
  - apply (keyDown_bounds Sibling.applyOperation Sibling.findInsertPosition
             Sibling_shape Sibling_grows findInsertPosition_held
             (handleDeleteResend Sibling.applyOperation)
             author key randomId now st); [|done..].
    intros position. apply handleDeleteResend_effect.
Qed.

Lemma handleKeyDown_keeps_cursor_in_text_witness :
  "root" ∈ ids (nodesOf user1 Examples.mounted)
  ∧ (0 ≤ cursorOf user1
           (Index.handleKeyDown user1 "ArrowRight" "n1" 5 Examples.mounted)
     ≤ Z.of_nat
         (length (visibleNodes
                    (nodesOf user1
                       (Index.handleKeyDown user1 "ArrowRight" "n1" 5
                          Examples.mounted)))))%Z.
Proof.
  assert ("root" ∈ ids (nodesOf user1 Examples.mounted)) as Hroot
    by (apply elem_of_cons; by left).
  split; [exact Hroot|].
  destruct (handleKeyDown_keeps_cursor_in_text Examples.mounted user1
              "ArrowRight" "n1" 5 Hroot) as [H _]; [| |exact H].
  - apply (bool_decide_unpack _). vm_compute. exact I.
  - simpl. lia.
Defined.

(** ** The root under the keyboard *)

Section RootKept.
Variable applyOperation : list RGANode → RGANode → list RGANode.
Variable findInsertPosition : Z → list RGANode → string.
Hypothesis keeps_root : ∀ s op,
  rooted s →
  (∀ r, s !! 0 = Some r → id op = "root" →
        (timestamp op <= timestamp r)%Z) →
  rooted (applyOperation s op).
Implicit Types (st : Editor) (author : Author).

Lemma rooted_holds_root (s : list RGANode) : rooted s → "root" ∈ ids s.
Proof.
  intros (r & rest & -> & Hr & _). unfold ids. rewrite fmap_cons, Hr.
  apply elem_of_cons. by left.
Qed.

Lemma keyDown_keeps_root (del : Z → Author → bool → Z → Editor → Editor)
    author key randomId now st :
  (∀ position, del position author true now st = st
     ∨ ∃ t, JS.get (visibleNodes (nodesOf author st)) (position + 1) = Some t
            ∧ nodesOf author (del position author true now st)
              = applyOperation (nodesOf author st) (tombstone t now)
            ∧ cursorOf author (del position author true now st)
              = Z.max 0 (cursorOf author st - 1)) →
  rooted (nodesOf author st) →
  randomId ∉ ids (nodesOf author st) →
  ∀ st',
    st' = (if bool_decide (key = "Backspace") && (cursorOf author st >? 0)%Z
           then del (cursorOf author st - 1)%Z author true now st
           else if bool_decide (key = "ArrowLeft")
           then setCursor author (λ c, Z.max 0 (c - 1)) st
           else if bool_decide (key = "ArrowRight")
           then setCursor author
                  (λ c, Z.min (Z.of_nat (length (visibleNodes
                                                   (nodesOf author st))))
                          (c + 1)) st
           else if bool_decide (JS.strLength key = 1)
           then handleInsert applyOperation findInsertPosition key
                  (cursorOf author st) author true randomId now st
           else st) →
    rooted (nodesOf author st').
Proof.
  intros Hdel Hrooted Hfresh st' ->.
  assert (rooted
            (nodesOf author
               (handleInsert applyOperation findInsertPosition key
                  (cursorOf author st) author true randomId now st)))
    as Hinsert.
  { unfold handleInsert. rewrite nodesOf_setCursor, nodesOf_updateNodes.
    rewrite bool_decide_true by done. simpl.
    apply keeps_root; [done|]. simpl. intros r _ ->.
    destruct Hfresh. by apply rooted_holds_root. }
  destruct (bool_decide (key = "Backspace")); simpl.
  { destruct (Z.gtb_spec (cursorOf author st) 0) as [Hpos|].
    - destruct (Hdel (cursorOf author st - 1)%Z)
        as [->|(t & Hget & -> & _)]; [done|].
      apply keeps_root; [done|]. simpl. intros r _ Hid.
      replace (cursorOf author st - 1 + 1)%Z
        with (Z.of_nat (Z.to_nat (cursorOf author st - 1)) + 1)%Z
        in Hget by lia.
      rewrite (get_succ_rooted _ _ Hrooted) in Hget.
      apply list_elem_of_lookup_2 in Hget.
      unfold visibleSequence in Hget.
      by apply list_elem_of_filter in Hget as [? _].
    - repeat case_bool_decide; rewrite ?nodesOf_setCursor; done. }
  repeat case_bool_decide; rewrite ?nodesOf_setCursor; done.
Qed.

End RootKept.

(** ** Which keys are typed into the text

    [e.key.length === 1] counts UTF-16 code units: a key named by one
    character of the Basic Multilingual Plane is inserted, whatever the
    number of bytes it takes here, and a key named by a character outside
    that plane (two code units) or by a word is not. *)

Lemma strLength_ascii (str : string) :
  Forall (λ b, Ascii.nat_of_ascii b < 128) (String.list_ascii_of_string str) →
  JS.strLength str = String.length str.
Proof.
  induction str as [|b rest IH]; simpl; [done|].
  intros [Hb Hrest]%Forall_cons. rewrite (IH Hrest).
  unfold JS.utf16Units. by rewrite (proj2 (Nat.ltb_lt _ _) Hb).
Qed.

Lemma handleKeyDown_counts_code_units :
  JS.strLength "a" = 1 ∧ JS.strLength "é" = 1 ∧ JS.strLength "€" = 1
  ∧ JS.strLength "😀" = 2 ∧ JS.strLength "Enter" = 5
  ∧ user1Nodes (Index.handleKeyDown user1 "€" "n1" 5 Examples.mounted)
    = [rootNode; Examples.node "n1" "€" 5 "root" false user1]
  ∧ user1Nodes (Sibling.handleKeyDown user1 "€" "n1" 5 Examples.mounted)
    = [rootNode; Examples.node "n1" "€" 5 "root" false user1]
  ∧ Index.handleKeyDown user1 "😀" "n1" 5 Examples.mounted = Examples.mounted
  ∧ Index.handleKeyDown user1 "Enter" "n1" 5 Examples.mounted
    = Examples.mounted.
Proof. split_and!; reflexivity. Qed.

(** X13. No key removes or displaces the root: on a replica whose root is
    first, visible and alone with its id, and for a new id that is not
    held, the same is true of the author's list after [handleKeyDown],
    whatever the key and the cursor. *)
Theorem handleKeyDown_keeps_root (st : Editor) (author : Author)
    (key randomId : string) (now : Z) :
  rooted (nodesOf author st) →
  randomId ∉ ids (nodesOf author st) →
  rooted (nodesOf author (Index.handleKeyDown author key randomId now st))
  ∧ rooted (nodesOf author
              (Sibling.handleKeyDown author key randomId now st)).
Proof.
  intros Hrooted Hfresh. split.
  - apply (keyDown_keeps_root Index.applyOperation Index.findInsertPosition
             Index_keeps_root (handleDelete Index.applyOperation)
             author key randomId now st); [|done..].
    intros position. apply handleDelete_effect.
  - apply (keyDown_keeps_root Sibling.applyOperation
             Sibling.findInsertPosition Sibling_keeps_root
             (handleDeleteResend Sibling.applyOperation)
             author key randomId now st); [|done..].
    intros position. apply handleDeleteResend_effect.
Qed.

Lemma handleKeyDown_keeps_root_witness :
  rooted (nodesOf user1 Examples.mounted)
  ∧ rooted (nodesOf user1
              (Sibling.handleKeyDown user1 "a" "n1" 5 Examples.mounted)).
Proof.
  assert (rooted (nodesOf user1 Examples.mounted)) as Hrooted
    by (exists rootNode, []; split_and!; [reflexivity..|constructor]).
  split; [exact Hrooted|].
  destruct (handleKeyDown_keeps_root Examples.mounted user1 "a" "n1" 5
              Hrooted) as [_ H]; [|exact H].
  apply (bool_decide_unpack _). vm_compute. exact I.
Defined.

Lemma replace_misses (q : string) (u : RGANode) (rest : list RGANode) :
  Forall (λ n, id n ≠ q) rest →
  (λ n, if bool_decide (id n = q) then u else n) <$> rest = rest.
Proof.
  induction 1 as [|n rest Hn Hrest IH]; [done|].
  rewrite fmap_cons, IH. by rewrite bool_decide_false.
Qed.

(** X14. In the first component a deletion can take the root: its
    [handleDelete] reads [vnodes[position]], so at position 0 (Backspace
    with the cursor at 1) the head of the list, when visible and alone with
    its id, is replaced by its tombstone and the rest is left as it is. *)
Theorem Legacy_handleDelete_reaches_root (st : Editor) (author : Author)
    (now : Z) (r : RGANode) (rest : list RGANode) :
  nodesOf author st = r :: rest →
  removed r = false →
  Forall (λ n, id n ≠ id r) rest →
  nodesOf author (Legacy.handleDelete 0 author true now st)
  = tombstone r now :: rest
  ∧ visibleNodes (nodesOf author (Legacy.handleDelete 0 author true now st))
    = visibleNodes rest.
Proof.
  intros Hnodes Hshown Hrest.
  assert (nodesOf author (Legacy.handleDelete 0 author true now st)
          = tombstone r now :: rest) as Hlocal.
  { unfold Legacy.handleDelete, handleDeleteMap. rewrite Hnodes.
    unfold visibleNodes. rewrite filter_cons, decide_True by done. simpl.
    rewrite nodesOf_setCursor, nodesOf_setTimeout, nodesOf_setNodes.
    rewrite decide_True by done. rewrite Hnodes. simpl.
    rewrite bool_decide_true by done. f_equal.
    by apply replace_misses. }
  split; [done|]. rewrite Hlocal. unfold visibleNodes.
  by rewrite filter_cons, decide_False.
Qed.

Lemma Legacy_handleDelete_reaches_root_witness :
  nodesOf user1 Examples.mounted = [rootNode]
  ∧ visibleNodes
      (nodesOf user1 (Legacy.handleDelete 0 user1 true 9 Examples.mounted))
    = [].
Proof.
  split; [reflexivity|].
  by destruct (Legacy_handleDelete_reaches_root Examples.mounted user1 9
                 rootNode [] eq_refl eq_refl (Forall_nil_2 _)) as [_ ->].
Defined.

(** X15. In the second and third component a deletion always wins at the
    peer: once its two timers have fired, every node of the peer that
    carries the deleted node's id is the tombstone, whatever timestamp the
    peer's copy had. *)
Theorem Sibling_delete_overrides_peer (st : Editor) (position : Z)
    (author : Author) (now : Z) (t : RGANode) :
  isOffline st = false → timers st = [] →
  JS.get (visibleNodes (nodesOf author st)) (position + 1) = Some t →
  ∀ n, n ∈ nodesOf (peer author)
             (flushAll Sibling.applyOperation
                (Sibling.handleDelete position author true now st)) →
       id n = id t → n = tombstone t now.
Proof.
  intros Honline Hnone Hget n.
  unfold Sibling.handleDelete, handleDeleteResend. rewrite Hget, Honline.
  unfold flushAll, updateNodes. rewrite Honline.
  destruct st as [u1 u2 d off c1 c2 ts]. simpl in *. subst.
  destruct author; simpl;
    intros (m & -> & Hm)%list_elem_of_fmap; by case_bool_decide.
Qed.

Lemma Sibling_delete_overrides_peer_witness :
  ∃ n, n ∈ nodesOf user1
             (flushAll Sibling.applyOperation
                (Sibling.handleDelete 0 user2 true 1001
                   (mkEditor Examples.deleteInsert_user1Nodes
                      Examples.deleteInsert_user2Nodes 1000 false 0 0 [])))
       ∧ id n = "h1" ∧ timestamp n = 1001%Z.
Proof.
  exists (tombstone (Examples.node "h1" "h" 1000 "root" false user1) 1001).
  split; [|done].
  pose proof (Sibling_delete_overrides_peer
                (mkEditor Examples.deleteInsert_user1Nodes
                   Examples.deleteInsert_user2Nodes 1000 false 0 0 [])
                0 user2 1001
                (Examples.node "h1" "h" 1000 "root" false user1)
                eq_refl eq_refl eq_refl) as H.
  apply elem_of_cons. right. apply elem_of_cons. left.
  symmetry. apply H; [|reflexivity].
  apply elem_of_cons. right. apply elem_of_cons. by left.
Defined.

(** ** Edge cases of the entry points *)

(** X16. A deletion whose clock is not ahead of the character's timestamp
    is lost on the author's side: on a replica with its root in place and
    distinct ids, [handleDelete] at a visible index whose node carries a
    timestamp of [now] or later leaves the author's list as it was, and
    still moves the cursor one place back. *)
Theorem handleDelete_stale_clock (st : Editor) (k : nat) (author : Author)
    (now : Z) (t : RGANode) :
  rooted (nodesOf author st) →
  NoDup (ids (nodesOf author st)) →
  visibleSequence (nodesOf author st) !! k = Some t →
  (now <= timestamp t)%Z →
  (nodesOf author (Index.handleDelete (Z.of_nat k) author true now st)
   = nodesOf author st
   ∧ cursorOf author (Index.handleDelete (Z.of_nat k) author true now st)
     = Z.max 0 (cursorOf author st - 1))
  ∧ (nodesOf author (Sibling.handleDelete (Z.of_nat k) author true now st)
     = nodesOf author st
     ∧ cursorOf author (Sibling.handleDelete (Z.of_nat k) author true now st)
       = Z.max 0 (cursorOf author st - 1)).
Proof.
  intros Hrooted Hnd Ht Hle.
  pose proof (get_succ_rooted _ k Hrooted) as Hget. rewrite Ht in Hget.
  destruct (visibleSequence_lookup_split _ _ _ Ht)
    as (l1 & l2 & Hnodes & _).
  assert (Sibling.applyOperation (nodesOf author st) (tombstone t now)
          = nodesOf author st) as Hsib.
  { rewrite Hnodes in *.
    rewrite (Sibling_merges_version l1 t l2 (tombstone t now) Hnd eq_refl).
    unfold newer. simpl.
    destruct (Z.geb_spec (timestamp t) now); [done|lia]. }
  assert (Index.applyOperation (nodesOf author st) (tombstone t now)
          = nodesOf author st) as Hidx.
  { destruct (list_find (λ n, Some (id n) = previousId (tombstone t now))
                (nodesOf author st)) as [[p x]|] eqn:Hprev;
      [|by apply Index_unresolved].
    rewrite Hnodes in *.
    rewrite (Index_existing _ _ _ _ _ _ Hprev
               (list_find_middle l1 t l2 (tombstone t now) Hnd eq_refl)).
    simpl. destruct (Z.geb_spec (timestamp t) now); [done|lia]. }
  split.
  - destruct (handleDelete_effect Index.applyOperation (Z.of_nat k)
                author now st) as [Heq|(t' & Hget' & Hn & Hc)].
    + unfold handleDelete in Heq. rewrite Hget in Heq.
      unfold Index.handleDelete, handleDelete. rewrite Hget.
      rewrite nodesOf_setCursor, nodesOf_updateNodes, cursorOf_setCursor,
        cursorOf_updateNodes.
      rewrite bool_decide_true by done. simpl. by rewrite Hidx.
    + unfold Index.handleDelete. rewrite Hn, Hc.
      rewrite Hget in Hget'. injection Hget' as <-. by rewrite Hidx.
  - destruct (handleDeleteResend_effect Sibling.applyOperation (Z.of_nat k)
                author now st) as [Heq|(t' & Hget' & Hn & Hc)].
    + unfold Sibling.handleDelete, handleDeleteResend. rewrite Hget.
      destruct (negb (isOffline st));
        rewrite ?nodesOf_setTimeout, ?cursorOf_setTimeout,
          nodesOf_setCursor, nodesOf_updateNodes, cursorOf_setCursor,
          cursorOf_updateNodes;
        rewrite bool_decide_true by done; simpl; by rewrite Hsib.
    + unfold Sibling.handleDelete. rewrite Hn, Hc.
      rewrite Hget in Hget'. injection Hget' as <-. by rewrite Hsib.
Qed.

Lemma handleDelete_stale_clock_witness :
  rooted Examples.oneChar
  ∧ nodesOf user1
      (Index.handleDelete 0 user1 true 10
         (mkEditor Examples.oneChar [rootNode] 1000 false 1 0 []))
    = Examples.oneChar.
Proof.
  assert (rooted Examples.oneChar) as Hrooted.
  { eexists _, _. split_and!; [reflexivity..|].
    apply (bool_decide_unpack _). vm_compute. exact I. }
  split; [exact Hrooted|].
  change 0%Z with (Z.of_nat 0).
  destruct (handleDelete_stale_clock
              (mkEditor Examples.oneChar [rootNode] 1000 false 1 0 [])
              0 user1 10 (Examples.node "c" "c" 10 "root" false user1)
              Hrooted) as [[H _] _]; [|reflexivity|reflexivity|exact H].
  apply (bool_decide_unpack _). vm_compute. exact I.
Defined.

(** X17. While the editor is offline an edit stays with its author:
    whatever the key, [handleKeyDown] leaves the peer's list and the
    pending timers as they were and does not switch the editor online. *)
Theorem offline_keys_stay_local (st : Editor) (author : Author)
    (key randomId : string) (now : Z) :
  isOffline st = true →
  (nodesOf (peer author) (Index.handleKeyDown author key randomId now st)
   = nodesOf (peer author) st
   ∧ timers (Index.handleKeyDown author key randomId now st) = timers st
   ∧ isOffline (Index.handleKeyDown author key randomId now st) = true)
  ∧ (nodesOf (peer author) (Sibling.handleKeyDown author key randomId now st)
     = nodesOf (peer author) st
     ∧ timers (Sibling.handleKeyDown author key randomId now st) = timers st
     ∧ isOffline (Sibling.handleKeyDown author key randomId now st) = true).
Proof.
  intros Hoff.
  unfold Index.handleKeyDown, Sibling.handleKeyDown, handleKeyDown,
    handleKeyDownResend, handleDelete, handleDeleteResend, handleInsert,
    updateNodes.
  rewrite Hoff. simpl.
  destruct (bool_decide (key = "Backspace") && (cursorOf author st >? 0)%Z),
    (bool_decide (key = "ArrowLeft")), (bool_decide (key = "ArrowRight")),
    (bool_decide (JS.strLength key = 1)),
    (JS.get (visibleNodes (nodesOf author st)) (cursorOf author st - 1 + 1));
    destruct author; simpl; by rewrite ?Hoff.
Qed.

Lemma offline_keys_stay_local_witness :
  timers (Index.handleKeyDown user1 "a" "n1" 5
            (setIsOffline true Examples.mounted)) = []
  ∧ user2Nodes (Index.handleKeyDown user1 "a" "n1" 5
                  (setIsOffline true Examples.mounted)) = [rootNode].
Proof.
  destruct (offline_keys_stay_local (setIsOffline true Examples.mounted)
              user1 "a" "n1" 5 eq_refl) as [(Hpeer & Htimers & _) _].
  split; [exact Htimers|exact Hpeer].
Defined.

(** X3. The first component's [findInsertPosition] is the later one moved
    by one place: for every index [p > 0] it answers at [p + 1] what the
    later components answer at [p], and on a replica with its root in place
    it still answers the root at index 1, behind the first character. *)
Theorem Legacy_findInsertPosition_shift (nodes : list RGANode) (p : Z) :
  (0 < p)%Z →
  Legacy.findInsertPosition (p + 1) nodes = Index.findInsertPosition p nodes
  ∧ (rooted nodes → Legacy.findInsertPosition 1 nodes = "root").
Proof.
  intros Hp. split.
  - unfold Legacy.findInsertPosition, Index.findInsertPosition.
    destruct (Z.gtb_spec (p + 1) 0); [|lia].
    destruct (Z.eqb_spec p 0); [lia|].
    by replace (p + 1 - 1)%Z with p by lia.
  - intros (r & rest & -> & Hr & Hshown & _).
    unfold Legacy.findInsertPosition, visibleNodes. simpl.
    rewrite filter_cons, decide_True by done. simpl. rewrite Hr.
    by case_bool_decide.
Qed.

Lemma Legacy_findInsertPosition_shift_witness :
  Legacy.findInsertPosition 2 Examples.oneChar = "c"
  ∧ Index.findInsertPosition 1 Examples.oneChar = "c".
Proof.
  destruct (Legacy_findInsertPosition_shift Examples.oneChar 1) as [H _];
    [lia|].
  split; [exact H|reflexivity].
Defined.

(** ** Delivering what is already held *)

Lemma Sibling_held_noop (s : list RGANode) (n : RGANode) :
  NoDup (ids s) → n ∈ s → Sibling.applyOperation s n = s.
Proof.
  intros Hnd (l1 & l2 & ->)%list_elem_of_split.
  rewrite (Sibling_merges_version l1 n l2 n Hnd eq_refl).
  unfold newer. by destruct (Z.geb_spec (timestamp n) (timestamp n)); [|lia].
Qed.

Lemma Index_held_noop (s : list RGANode) (n : RGANode) :
  NoDup (ids s) → n ∈ s → Index.applyOperation s n = s.
Proof.
  intros Hnd (l1 & l2 & ->)%list_elem_of_split.
  destruct (list_find (λ m, Some (id m) = previousId n) (l1 ++ n :: l2))
    as [[p x]|] eqn:Hprev; [|by apply Index_unresolved].
  rewrite (Index_existing _ _ _ _ _ _ Hprev
             (list_find_middle l1 n l2 n Hnd eq_refl)).
  by destruct (Z.geb_spec (timestamp n) (timestamp n)); [|lia].
Qed.

(** X18. Delivering a replica nodes it already holds changes nothing:
    when its ids are pairwise distinct, merging any list of nodes taken
    from the replica itself, in any order and with any repetition, returns
    the replica's list unchanged. *)
Theorem redelivery_changes_nothing (s ops : list RGANode) :
  NoDup (ids s) → ops ⊆ s →
  applyAll Sibling.applyOperation s ops = s
  ∧ applyAll Index.applyOperation s ops = s.
Proof.
  intros Hnd. unfold applyAll.
  induction ops as [|n ops IH]; intros Hsub; [done|]. simpl.
  assert (n ∈ s) as Hn by (apply Hsub, elem_of_cons; by left).
  rewrite (Sibling_held_noop _ _ Hnd Hn), (Index_held_noop _ _ Hnd Hn).
  apply IH. intros m Hm. apply Hsub, elem_of_cons. by right.
Qed.

Lemma redelivery_changes_nothing_witness :
  NoDup (ids Examples.deleteInsert_user2Nodes)
  ∧ applyAll Index.applyOperation Examples.deleteInsert_user2Nodes
      (reverse Examples.deleteInsert_user2Nodes
       ++ Examples.deleteInsert_user2Nodes)
    = Examples.deleteInsert_user2Nodes.
Proof.
  assert (NoDup (ids Examples.deleteInsert_user2Nodes)) as Hnd
    by (apply (bool_decide_unpack _); vm_compute; exact I).
  split; [exact Hnd|].
  destruct (redelivery_changes_nothing Examples.deleteInsert_user2Nodes
              (reverse Examples.deleteInsert_user2Nodes
               ++ Examples.deleteInsert_user2Nodes) Hnd) as [_ H];
    [|exact H].
  intros m [Hm|Hm]%elem_of_app; [|done]. by apply elem_of_reverse in Hm.
Defined.
